(** * Error handling, logging and health monitoring of the GitMesh CE website

    A shallow embedding of the operational utilities of the site:
    - [ErrorHandling]: the retry-with-backoff executor and the retryability
      classifier (lib/error-handling);
    - [Monitoring]: the health-check aggregator and the uptime monitor
      (src/lib/monitoring.ts);
    - [Logging]: the rotating file logger, in its two variants
      (lib/error-logger and lib/error-logger.server).

    JavaScript numbers that the code uses as counters and millisecond
    amounts are integers of [Z]; the availability percentage, a quotient,
    is a rational of [Q].  Strings are sequences of 8-bit characters, so
    case folding and white space are those of ASCII. *)

From Stdlib Require Import ZArith List Bool Lia Ascii String.
From Stdlib Require Import QArith Qround Qabs Lqa.
From Stdlib Require Import Sorting.Permutation Sorting.Sorted Sorting.Mergesort.
From Stdlib Require Import DecimalString.
From stdpp Require Import gmap strings.

Close Scope Q_scope.
Open Scope Z_scope.
Import ListNotations.

(* stdpp freezes [String.append] under [simpl]; the proofs below unfold it. *)
#[global] Arguments String.append !s1 s2 : simpl nomatch.

(** ** Completions: a call either returns or throws *)

Inductive completion (E A : Type) : Type :=
| Normal (a : A)
| Throw (e : E).
Arguments Normal {E A} a.
Arguments Throw {E A} e.

(** ** String primitives of the JavaScript runtime *)

Module JsString.

(** [s.includes(pat)]: [pat] occurs in [s] at some position. *)
Fixpoint includes (s pat : string) : bool :=
  String.prefix pat s ||
  match s with
  | EmptyString => false
  | String _ s' => includes s' pat
  end.

Definition isUpper (c : ascii) : bool :=
  let n := nat_of_ascii c in (65 <=? n)%nat && (n <=? 90)%nat.

Definition lowerChar (c : ascii) : ascii :=
  if isUpper c then ascii_of_nat (nat_of_ascii c + 32) else c.

(** [s.toLowerCase()] *)
Fixpoint toLowerCase (s : string) : string :=
  match s with
  | EmptyString => EmptyString
  | String c s' => String (lowerChar c) (toLowerCase s')
  end.

(** [s.startsWith(p)] and [s.endsWith(p)] *)
Definition startsWith (s p : string) : bool := String.prefix p s.

Fixpoint revString (s : string) : string :=
  match s with
  | EmptyString => EmptyString
  | String c s' => String.append (revString s') (String c EmptyString)
  end.

Definition endsWith (s p : string) : bool :=
  String.prefix (revString p) (revString s).

Fixpoint dropString (n : nat) (s : string) : string :=
  match n, s with
  | O, _ => s
  | S n', String _ s' => dropString n' s'
  | S _, EmptyString => EmptyString
  end.

(** [s.replace(pat, rep)] for a string pattern: the first occurrence of
    [pat] is replaced ([rep] holds no [$] escape where the code calls it). *)
Fixpoint replace (s pat rep : string) : string :=
  if String.prefix pat s then String.append rep (dropString (String.length pat) s)
  else match s with
       | EmptyString => EmptyString
       | String c s' => String c (replace s' pat rep)
       end.

(** White space removed by [trim]: tab, line feed, vertical tab, form
    feed, carriage return and space. *)
Definition isSpace (c : ascii) : bool :=
  let n := nat_of_ascii c in
  ((9 <=? n)%nat && (n <=? 13)%nat) || (n =? 32)%nat.

Fixpoint trimStart (s : string) : string :=
  match s with
  | EmptyString => EmptyString
  | String c s' => if isSpace c then trimStart s' else s
  end.

(** [s.trim()] *)
Definition trim (s : string) : string :=
  revString (trimStart (revString (trimStart s))).

(** [s.split('\n')]: always at least one piece. *)
Fixpoint splitLines (s : string) : list string :=
  match s with
  | EmptyString => [EmptyString]
  | String c s' =>
      if Ascii.eqb c "010"%char then EmptyString :: splitLines s'
      else match splitLines s' with
           | [] => [String c EmptyString]
           | l :: ls => String c l :: ls
           end
  end.

(** [p] occurs in [s]; [p] occurs in [s] up to the case of letters. *)
Definition occursIn (p s : string) : Prop :=
  exists pre post, s = pre +:+ p +:+ post.

Definition occursIgnoringCase (p s : string) : Prop :=
  exists pre u post, s = pre +:+ u +:+ post /\ toLowerCase u = toLowerCase p.

(** Decimal rendering of an integer inside a template literal. *)
Definition ofZ (z : Z) : string := NilZero.string_of_int (Z.to_int z).

End JsString.

(** ** lib/error-handling: retry with exponential backoff *)

Module ErrorHandling.
Import JsString.

(** A thrown error as the code inspects it: [message], and the [code] and
    [status] properties that some errors carry. *)
Record Error : Type := mkError {
  message : string;
  code : option string;
  status : option Z
}.

Record RetryConfig : Type := mkRetryConfig {
  maxAttempts : Z;
  baseDelay : Z;
  maxDelay : Z;
  backoffMultiplier : Z;
  retryableErrors : option (list string)
}.

Definition codeIs (error : Error) (c : string) : bool :=
  match code error with
  | Some c' => String.eqb c' c
  | None => false
  end.

Definition statusAtLeast (error : Error) (n : Z) : bool :=
  match status error with
  | Some st => n <=? st
  | None => false
  end.

Definition isErrorRetryable (error : Error) (retryableErrors : option (list string)) : bool :=
  match retryableErrors with
  | None =>
      includes (message error) "timeout" ||
      includes (message error) "network" ||
      includes (message error) "ECONNRESET" ||
      includes (message error) "ENOTFOUND" ||
      codeIs error "ECONNRESET" ||
      codeIs error "ETIMEDOUT" ||
      statusAtLeast error 500
  | Some patterns =>
      existsb (fun pattern =>
                 includes (toLowerCase (message error)) (toLowerCase pattern) ||
                 codeIs error pattern) patterns
  end.

(** What a run of [withRetry] does to the outside world, in order. *)
Inductive Event : Type :=
| Invoke (i : nat)
| LogInfo (msg : string) (attempt totalAttempts : Z)
| LogWarn (msg : string) (attempt totalAttempts delay : Z) (error : string)
| LogError (msg : string) (err : Error) (attempt totalAttempts : Z) (isRetryable : bool)
| Sleep (ms : Z).

Definition backoffDelay (config : RetryConfig) (attempt : Z) : Z :=
  Z.min (baseDelay config * backoffMultiplier config ^ (attempt - 1)) (maxDelay config).

Section WithRetry.
Context {T : Type}.

(** The operation is a thunk with hidden state: [operation i] is the
    completion of its [i]-th invocation (from 0). *)
Variable operation : nat -> completion Error T.
Variable config : RetryConfig.

(** The [while (attempt < config.maxAttempts)] loop; [calls] counts the
    invocations made so far.  [None] only when [fuel] runs out. *)
Fixpoint withRetryLoop (fuel : nat) (calls : nat) (lastError : option Error) (attempt : Z)
  : option (completion (option Error) T * list Event) :=
  if attempt <? maxAttempts config then
    match fuel with
    | O => None
    | S fuel' =>
        match operation calls with
        | Normal result =>
            Some (Normal result,
                  Invoke calls ::
                  (if 0 <? attempt
                   then [LogInfo "Operation succeeded after retry" (attempt + 1) (maxAttempts config)]
                   else []))
        | Throw error =>
            let lastError := Some error in
            let attempt := attempt + 1 in
            let isRetryable := isErrorRetryable error (retryableErrors config) in
            if negb isRetryable || (maxAttempts config <=? attempt) then
              Some (Throw lastError,
                    [Invoke calls;
                     LogError "Operation failed after all retries" error attempt
                              (maxAttempts config) isRetryable])
            else
              let delay := backoffDelay config attempt in
              match withRetryLoop fuel' (S calls) lastError attempt with
              | Some (r, trace) =>
                  Some (r,
                        Invoke calls ::
                        LogWarn "Operation failed, retrying" attempt (maxAttempts config)
                                delay (message error) ::
                        Sleep delay :: trace)
              | None => None
              end
        end
    end
  else Some (Throw lastError, []).

Definition withRetry : option (completion (option Error) T * list Event) :=
  withRetryLoop (Z.to_nat (maxAttempts config)) 0 None 0.
End WithRetry.

Definition invocations (trace : list Event) : list nat :=
  flat_map (fun ev => match ev with Invoke i => [i] | _ => [] end) trace.

Definition sleeps (trace : list Event) : list Z :=
  flat_map (fun ev => match ev with Sleep ms => [ms] | _ => [] end) trace.

(** Two operations for the examples: one that the network always fails,
    one that is refused at once. *)
Definition networkDown (i : nat) : completion Error unit :=
  Throw (mkError "network unreachable" None None).

Definition badRequest (i : nat) : completion Error unit :=
  Throw (mkError "400 Bad Request" (Some "EBADREQ"%string) (Some 400)).

(** The presets of [RETRY_CONFIGS]. *)
Definition RETRY_CONFIGS_github : RetryConfig :=
  mkRetryConfig 3 1000 10000 2 (Some ["ECONNRESET"; "ETIMEDOUT"; "rate limit"]%string).
Definition RETRY_CONFIGS_email : RetryConfig :=
  mkRetryConfig 3 2000 15000 2 (Some ["timeout"; "network"; "5"]%string).
Definition RETRY_CONFIGS_api : RetryConfig :=
  mkRetryConfig 2 500 5000 2 (Some ["timeout"; "network"]%string).

End ErrorHandling.

(** ** src/lib/monitoring.ts: health checks and uptime *)

Module Monitoring.
Import JsString.

Inductive Status : Type := healthy | unhealthy | degraded.

Definition Status_eqb (a b : Status) : bool :=
  match a, b with
  | healthy, healthy | unhealthy, unhealthy | degraded, degraded => true
  | _, _ => false
  end.

(** A value caught by a [catch] clause: an [Error] instance with its
    message and stack, or any other value, of which the code only takes
    [String(error)]. *)
Inductive Thrown : Type :=
| ErrorObject (message stack : string)
| OtherValue (asString : string).

Definition thrownMessage (error : Thrown) : string :=
  match error with
  | ErrorObject m _ => m
  | OtherValue _ => "Unknown error"
  end.

Definition thrownDetail (error : Thrown) : string :=
  match error with
  | ErrorObject _ st => st
  | OtherValue s => s
  end.

Record HealthCheck : Type := mkHealthCheck {
  name : string;
  status : Status;
  message : option string;
  responseTime : option Z;
  lastChecked : Z;
  details : option (list (string * string))
}.

Record SystemHealth : Type := mkSystemHealth {
  overall : Status;
  checks : list HealthCheck;
  timestamp : Z;
  uptime : Z;
  version : string;
  environment : string
}.

(** The outcome of each file-system call of the probe, and of
    [JSON.parse] on what was read back. *)
Record FsProbe : Type := mkFsProbe {
  writeFile : completion Thrown unit;
  readFile : completion Thrown string;
  parseJSON : string -> completion Thrown unit;
  unlink : completion Thrown unit
}.

Definition bindC {E A B} (c : completion E A) (k : A -> completion E B) : completion E B :=
  match c with
  | Normal a => k a
  | Throw e => Throw e
  end.

(** [p.catch(() => {})] *)
Definition catchIgnore {E} (c : completion E unit) : completion E unit := Normal tt.

Definition tryCatch {E A} (body : completion E A) (handler : E -> A) : A :=
  match body with
  | Normal a => a
  | Throw e => handler e
  end.

Notation "'let!' x ':=' c 'in' k" := (bindC c (fun x => k))
  (at level 10, x pattern, c at level 100, k at level 200).

(** [startTime], [endTime] and [checkedAt] are the clock readings of
    [Date.now()] before and after the probe and of [new Date()] in the
    result. *)
Definition checkFileSystem (fs : FsProbe) (startTime endTime checkedAt : Z) : HealthCheck :=
  tryCatch
    (let! _ := writeFile fs in
     let! content := readFile fs in
     let! _ := parseJSON fs content in
     let! _ := catchIgnore (unlink fs) in
     let responseTime := endTime - startTime in
     Normal {| name := "File System";
               status := healthy;
               message := Some "Read/write operations successful"%string;
               responseTime := Some responseTime;
               lastChecked := checkedAt;
               details := None |})
    (fun error =>
       let responseTime := endTime - startTime in
       {| name := "File System";
          status := unhealthy;
          message := Some (thrownMessage error);
          responseTime := Some responseTime;
          lastChecked := checkedAt;
          details := Some [("error"%string, thrownDetail error)] |}).

(** The reduction of [runHealthChecks]. *)
Definition overallOf (checks : list HealthCheck) : Status :=
  let hasUnhealthy := existsb (fun check => Status_eqb (status check) unhealthy) checks in
  let hasDegraded := existsb (fun check => Status_eqb (status check) degraded) checks in
  if hasUnhealthy then unhealthy
  else if hasDegraded then degraded
  else healthy.

(** [probes] is the completion of [await Promise.all([...])] over the four
    probes; [now] is [new Date()], [processUptime] is [process.uptime()]. *)
Definition runHealthChecks (probes : completion Thrown (list HealthCheck))
    (now processUptime : Z) (version environment : string) : SystemHealth :=
  tryCatch
    (let! checks := probes in
     Normal {| overall := overallOf checks;
               checks := checks;
               timestamp := now;
               uptime := processUptime;
               version := version;
               environment := environment |})
    (fun error =>
       {| overall := unhealthy;
          checks := [{| name := "Health Check System";
                        status := unhealthy;
                        message := Some (thrownMessage error);
                        responseTime := None;
                        lastChecked := now;
                        details := None |}];
          timestamp := now;
          uptime := processUptime;
          version := version;
          environment := environment |}).

(** *** UptimeMonitor *)

Record UptimeMonitor : Type := mkUptimeMonitor {
  startTime : Z;
  ring : list (Z * bool)   (* checks: timestamp and status, oldest first *)
}.

Definition maxChecks : nat := 100.

Definition newUptimeMonitor (now : Z) : UptimeMonitor :=
  {| startTime := now; ring := [] |}.

(** [l.slice(-n)]: the last [n] elements, all of [l] when it is shorter. *)
Definition sliceLast {A} (n : nat) (l : list A) : list A :=
  skipn (length l - n) l.

Definition recordCheck (m : UptimeMonitor) (now : Z) (isHealthy : bool) : UptimeMonitor :=
  let checks := ring m ++ [(now, isHealthy)] in
  {| startTime := startTime m;
     ring := if (maxChecks <? length checks)%nat then sliceLast maxChecks checks else checks |}.

Definition formatUptime (ms : Z) : string :=
  let seconds := ms / 1000 in
  let minutes := seconds / 60 in
  let hours := minutes / 60 in
  let days := hours / 24 in
  if 0 <? days then
    ofZ days +:+ "d " +:+ ofZ (Z.rem hours 24) +:+ "h " +:+ ofZ (Z.rem minutes 60) +:+ "m"
  else if 0 <? hours then
    ofZ hours +:+ "h " +:+ ofZ (Z.rem minutes 60) +:+ "m"
  else if 0 <? minutes then
    ofZ minutes +:+ "m " +:+ ofZ (Z.rem seconds 60) +:+ "s"
  else
    ofZ seconds +:+ "s".

(** [Math.round]: the nearest integer, halves upwards. *)
Definition MathRound (x : Q) : Z := Qfloor (x + (1 # 2))%Q.

Record UptimeStats : Type := mkUptimeStats {
  statsUptime : Z;
  uptimeFormatted : string;
  availability : Q;
  totalChecks : nat;
  recentChecks : nat;
  successfulChecks : nat
}.

Definition natQ (n : nat) : Q := inject_Z (Z.of_nat n).

Definition getStats (m : UptimeMonitor) (now : Z) : UptimeStats :=
  let uptimeMs := now - startTime m in
  let recent := sliceLast 20 (ring m) in
  let successful := length (List.filter (fun check => snd check) recent) in
  let avail :=
    if (0 <? length recent)%nat
    then (natQ successful / natQ (length recent) * 100)%Q
    else 100%Q in
  {| statsUptime := uptimeMs;
     uptimeFormatted := formatUptime uptimeMs;
     availability := (inject_Z (MathRound (avail * 100)) / 100)%Q;
     totalChecks := length (ring m);
     recentChecks := length recent;
     successfulChecks := successful |}.

(** The steps of the file-system probe, as predicates on its outcomes. *)
Definition succeeds {E A} (c : completion E A) : Prop := exists a, c = Normal a.

Definition coreStepsSucceed (fs : FsProbe) : Prop :=
  succeeds (writeFile fs) /\
  exists content, readFile fs = Normal content /\ succeeds (parseJSON fs content).

Definition allStepsSucceed (fs : FsProbe) : Prop :=
  coreStepsSucceed fs /\ succeeds (unlink fs).

(** The error of the first step that fails. *)
Definition firstFailure (fs : FsProbe) : option Thrown :=
  match writeFile fs with
  | Throw e => Some e
  | Normal _ =>
      match readFile fs with
      | Throw e => Some e
      | Normal content =>
          match parseJSON fs content with
          | Throw e => Some e
          | Normal _ => None
          end
      end
  end.

(** A probe on which only the removal of the marker file fails. *)
Definition cleanupFails : FsProbe :=
  {| writeFile := Normal tt;
     readFile := Normal "{}"%string;
     parseJSON := fun _ => Normal tt;
     unlink := Throw (ErrorObject "EPERM: operation not permitted, unlink" "Error: EPERM") |}.

(** A check result that carries a given status. *)
Definition checkWith (st : Status) : HealthCheck :=
  {| name := "probe"; status := st; message := None; responseTime := None;
     lastChecked := 0; details := None |}.

(** The last [n] elements, counted from the end. *)
Definition mostRecent {A} (n : nat) (l : list A) : list A := rev (firstn n (rev l)).

Definition countTrue (l : list (Z * bool)) : nat :=
  length (List.filter (fun check => snd check) l).

(** A monitor one day, one hour, one minute and one second after its
    start, with one check recorded. *)
Definition dayOldMonitor : UptimeMonitor := recordCheck (newUptimeMonitor 0) 1000 true.
Definition dayOldNow : Z := 90061000.

(** How many space-separated components a rendered duration shows. *)
Fixpoint unitsShown (s : string) : nat :=
  match s with
  | EmptyString => 1
  | String c s' => if Ascii.eqb c " "%char then S (unitsShown s') else unitsShown s'
  end.

End Monitoring.

(** ** lib/error-logger and lib/error-logger.server: the rotating file sink *)

(** [Array.prototype.sort()] without a comparator, on strings: ascending
    order of the character codes. *)
Module StringOrder <: Orders.TotalLeBool.
Definition t := string.
Definition leb := String.leb.
Theorem leb_total : forall a1 a2, is_true (leb a1 a2) \/ is_true (leb a2 a1).
Proof. intros a1 a2. apply String.leb_total. Qed.
End StringOrder.

Module StringSort := Sort StringOrder.

Module Logging.
Import JsString.
Import Monitoring (Thrown, ErrorObject, OtherValue).

Record File : Type := mkFile {
  size : Z;                    (* [stats.size], in bytes *)
  content : option string      (* [None]: [readFile] fails on it *)
}.

(** The [logs/] directory as the process finds it. *)
Inductive DirState : Type :=
| Present (entries : gmap string File)
| Absent                       (* not there yet; [mkdir] creates it *)
| Blocked.                     (* [mkdir] and [readdir] throw *)

Inductive FsEvent : Type :=
| Unlinked (file : string)
| Renamed (file archive : string)
| ConsoleError (msg : string).

Record World : Type := mkWorld {
  logDir : DirState;
  journal : list FsEvent       (* effects so far, oldest first *)
}.

(** Computations on the world that return or throw. *)
Definition FsM (A : Type) : Type := World -> completion Thrown A * World.

Definition ret {A} (a : A) : FsM A := fun w => (Normal a, w).
Definition throw {A} (e : Thrown) : FsM A := fun w => (Throw e, w).
Definition bind {A B} (m : FsM A) (k : A -> FsM B) : FsM B :=
  fun w => match m w with
           | (Normal a, w') => k a w'
           | (Throw e, w') => (Throw e, w')
           end.
Definition catch {A} (m : FsM A) (handler : Thrown -> FsM A) : FsM A :=
  fun w => match m w with
           | (Normal a, w') => (Normal a, w')
           | (Throw e, w') => handler e w'
           end.

Notation "'do' x <- m ; k" := (bind m (fun x => k))
  (at level 10, x pattern, m at level 100, k at level 200).

Definition emit (ev : FsEvent) : FsM unit :=
  fun w => (Normal tt, {| logDir := logDir w; journal := journal w ++ [ev] |}).

Definition fsError (what : string) : Thrown := ErrorObject what what.

Definition setDir (d : gmap string File) : FsM unit :=
  fun w => (Normal tt, {| logDir := Present d; journal := journal w |}).

Definition mkdir : FsM unit :=
  fun w => match logDir w with
           | Present _ => (Normal tt, w)
           | Absent => (Normal tt, {| logDir := Present ∅; journal := journal w |})
           | Blocked => (Throw (fsError "EACCES"), w)
           end.

Definition getDir : FsM (gmap string File) :=
  fun w => match logDir w with
           | Present d => (Normal d, w)
           | Absent => (Throw (fsError "ENOENT"), w)
           | Blocked => (Throw (fsError "EACCES"), w)
           end.

Definition readdir : FsM (list string) :=
  do d <- getDir; ret (map fst (map_to_list d)).

Definition stat (file : string) : FsM File :=
  do d <- getDir;
  match d !! file with
  | Some f => ret f
  | None => throw (fsError "ENOENT")
  end.

Definition unlink (file : string) : FsM unit :=
  do d <- getDir;
  match d !! file with
  | Some _ => do _ <- setDir (delete file d); emit (Unlinked file)
  | None => throw (fsError "ENOENT")
  end.

(** [rename] replaces whatever bears the new name. *)
Definition rename (file archive : string) : FsM unit :=
  do d <- getDir;
  match d !! file with
  | Some f => do _ <- setDir (<[archive := f]> (delete file d)); emit (Renamed file archive)
  | None => throw (fsError "ENOENT")
  end.

Definition readFile (file : string) : FsM string :=
  do f <- stat file;
  match content f with
  | Some text => ret text
  | None => throw (fsError "EISDIR")
  end.

Definition maxLogFiles : nat := 10.
Definition maxLogSize : Z := 10 * 1024 * 1024.

Definition isLogFile (file : string) : bool :=
  startsWith file "error-" && endsWith file ".log".

(** [files.filter(...).sort().reverse()] *)
Definition logFilesOf (files : list string) : list string :=
  rev (StringSort.sort (List.filter isLogFile files)).

(** [iso.replace(/[:.]/g, '-')] *)
Fixpoint dashColonsAndDots (iso : string) : string :=
  match iso with
  | EmptyString => EmptyString
  | String c s' =>
      String (if Ascii.eqb c ":"%char || Ascii.eqb c "."%char then "-"%char else c)
             (dashColonsAndDots s')
  end.

Definition archiveName (file iso : string) : string :=
  let timestamp := dashColonsAndDots iso in
  replace file ".log" ("-" +:+ timestamp +:+ ".log").

(** [for (const file of filesToDelete) await unlink(...).catch(() => {})] *)
Fixpoint unlinkAll (files : list string) : FsM unit :=
  match files with
  | [] => ret tt
  | file :: rest =>
      do _ <- catch (unlink file) (fun _ => ret tt);
      unlinkAll rest
  end.

(** The second loop of [rotateLogs]; [clock i] is what
    [new Date().toISOString()] gives in iteration [i]. *)
Fixpoint archiveOversized (clock : nat -> string) (i : nat) (files : list string) : FsM unit :=
  match files with
  | [] => ret tt
  | file :: rest =>
      do stats <- stat file;
      do _ <- (if maxLogSize <? size stats
               then rename file (archiveName file (clock i))
               else ret tt);
      archiveOversized clock (S i) rest
  end.

(** [rotateLogs], the same in both loggers. *)
Definition rotateLogs (clock : nat -> string) : FsM unit :=
  catch
    (do files <- readdir;
     let logFiles := logFilesOf files in
     do _ <- (if (maxLogFiles <? length logFiles)%nat
              then unlinkAll (skipn maxLogFiles logFiles)
              else ret tt);
     archiveOversized clock 0 (firstn maxLogFiles logFiles))
    (fun error => emit (ConsoleError "Failed to rotate logs:")).

(** *** Reading the logs back *)

(** The two modules differ in what they import at top level. *)
Inductive LoggerModule : Type :=
| ErrorLoggerModule          (* lib/error-logger *)
| ServerErrorLoggerModule.   (* lib/error-logger.server *)

Definition moduleScope (m : LoggerModule) : list string :=
  match m with
  | ErrorLoggerModule => ["join"]
  | ServerErrorLoggerModule =>
      ["writeFile"; "mkdir"; "readdir"; "stat"; "unlink"; "rename"; "join"]
  end%string.

(** Evaluating a free identifier of a method body: a [ReferenceError]
    unless the module binds it. *)
Definition resolve (m : LoggerModule) (ident : string) : FsM unit :=
  if existsb (String.eqb ident) (moduleScope m) then ret tt
  else throw (ErrorObject (ident +:+ " is not defined") "ReferenceError").

Section GetRecentLogs.
(** A record of type [ErrorLog], and the body of the innermost [try]:
    [JSON.parse(line)] and the construction of the record, [None] when
    that throws. *)
Context {ErrorLog : Type}.
Variable parseLine : string -> option ErrorLog.

Fixpoint collectLines (limit : nat) (lines : list string) (logs : list ErrorLog)
  : list ErrorLog :=
  match lines with
  | [] => logs
  | line :: rest =>
      if (limit <=? length logs)%nat then logs
      else if String.eqb (trim line) "" then collectLines limit rest logs
      else match parseLine line with
           | Some log => collectLines limit rest (logs ++ [log])
           | None => collectLines limit rest logs
           end
  end.

Fixpoint collectFiles (limit : nat) (logFiles : list string) (logs : list ErrorLog)
  : FsM (list ErrorLog) :=
  match logFiles with
  | [] => ret logs
  | file :: rest =>
      if (limit <=? length logs)%nat then ret logs
      else
        do logs' <- catch
             (do text <- readFile file;
              let lines := rev (splitLines (trim text)) in
              ret (collectLines limit lines logs))
             (fun fileError => ret logs);
        collectFiles limit rest logs'
  end.

(** [getRecentLogs] of the logger defined in module [m]: both bodies
    call [mkdir] by its bare name. *)
Definition getRecentLogs (m : LoggerModule) (limit : nat) : FsM (list ErrorLog) :=
  catch
    (do _ <- resolve m "mkdir";
     do _ <- mkdir;
     do files <- readdir;
     let logFiles := logFilesOf files in
     collectFiles limit logFiles [])
    (fun error =>
       do _ <- emit (ConsoleError "Failed to get recent logs:");
       ret []).

(** What the files hold, newest first; the reference that
    [getRecentLogs] is compared with. *)
Definition recordsOfLine (line : string) : list ErrorLog :=
  if String.eqb (trim line) "" then []
  else match parseLine line with
       | Some log => [log]
       | None => []
       end.

Definition recordsOfText (text : string) : list ErrorLog :=
  flat_map recordsOfLine (rev (splitLines (trim text))).

Definition recordsOfFile (d : gmap string File) (file : string) : list ErrorLog :=
  match d !! file with
  | Some {| content := Some text |} => recordsOfText text
  | _ => []
  end.

Definition recordsNewestFirst (d : gmap string File) : list ErrorLog :=
  flat_map (recordsOfFile d) (logFilesOf (map fst (map_to_list d))).
End GetRecentLogs.

(** The directory once [files] are removed from it. *)
Definition deleteAll (files : list string) (d : gmap string File) : gmap string File :=
  fold_left (fun d' file => delete file d') files d.

Definition dirOf (w : World) : gmap string File :=
  match logDir w with
  | Present d => d
  | _ => ∅
  end.

Definition initially (d : DirState) : World := {| logDir := d; journal := [] |}.

(** For the examples: a stand-in for [JSON.parse] that accepts the lines
    opening with a brace, the record being the line itself. *)
Definition acceptBraced (line : string) : option string :=
  if String.prefix "{" line then Some line else None.

(** Twelve daily log files, each with two records around a malformed
    line; the file of the 11th is oversized. *)
Definition sampleDir : gmap string File :=
  list_to_map
    (map (fun n =>
            ("error-2024-01-" +:+ (if (n <? 10)%nat then "0" else "") +:+
             ofZ (Z.of_nat n) +:+ ".log",
             mkFile (if (n =? 11)%nat then 20000000 else 5)
                    (Some "{a}
x
{b}
")))
         (seq 1 12)).

Definition sampleClock (i : nat) : string := "2024-02-01T10:11:12.345Z".

Definition unlinkedOf (evs : list FsEvent) : list string :=
  flat_map (fun ev => match ev with Unlinked f => [f] | _ => [] end) evs.

Definition renamedOf (evs : list FsEvent) : list (string * string) :=
  flat_map (fun ev => match ev with Renamed f a => [(f, a)] | _ => [] end) evs.

End Logging.

(** ** lib/error-handling: the console logger *)

Module AppLogger.
Import JsString.

Inductive LogLevel : Type := ERROR | WARN | INFO | DEBUG.

(** The string value of each member of the enum. *)
Definition levelValue (level : LogLevel) : string :=
  match level with
  | ERROR => "error"
  | WARN => "warn"
  | INFO => "info"
  | DEBUG => "debug"
  end.

Fixpoint indexOfFrom (i : Z) (l : list string) (x : string) : Z :=
  match l with
  | [] => -1
  | y :: l' => if String.eqb y x then i else indexOfFrom (i + 1) l' x
  end.

(** [l.indexOf(x)]: the first position of [x], or -1. *)
Definition indexOf (l : list string) (x : string) : Z := indexOfFrom 0 l x.

(** [process.env.LOG_LEVEL || 'info'] *)
Definition logLevelOf (LOG_LEVEL : option string) : string :=
  match LOG_LEVEL with
  | Some s => if String.eqb s "" then "info" else s
  | None => "info"
  end.

Definition shouldLog (logLevel : string) (level : LogLevel) : bool :=
  let levels := map levelValue [ERROR; WARN; INFO; DEBUG] in
  let currentLevelIndex := indexOf levels logLevel in
  let messageLevelIndex := indexOf levels (levelValue level) in
  messageLevelIndex <=? currentLevelIndex.

(** Where an entry ends up. *)
Inductive Sink : Type :=
| ToConsoleError | ToConsoleWarn | ToConsoleInfo | ToConsoleDebug
| ToConsoleLog          (* the structured line of production *)
| ToFileLogger.         (* [sendToExternalService] *)

Definition isERROR (level : LogLevel) : bool :=
  match level with ERROR => true | _ => false end.

(** [Logger.log]: the sinks that receive the entry; [isDevelopment] is
    [NODE_ENV === 'development']. *)
Definition log (isDevelopment : bool) (logLevel : string) (level : LogLevel) : list Sink :=
  if negb (shouldLog logLevel level) then []
  else
    (if isDevelopment
     then [match level with
           | ERROR => ToConsoleError
           | WARN => ToConsoleWarn
           | INFO => ToConsoleInfo
           | DEBUG => ToConsoleDebug
           end]
     else [ToConsoleLog]) ++
    (if negb isDevelopment && isERROR level then [ToFileLogger] else []).

(** Severity, most severe first. *)
Definition rank (level : LogLevel) : Z :=
  match level with ERROR => 0 | WARN => 1 | INFO => 2 | DEBUG => 3 end.

End AppLogger.

(** ** src/lib/monitoring.ts: request metrics *)

Module Metrics.

Record EndpointMetrics : Type := mkEndpointMetrics {
  count : Z;
  totalTime : Z;
  errors : Z
}.

Record PerformanceMetrics : Type := mkPerformanceMetrics {
  requestCount : Z;
  averageResponseTime : Q;
  errorRate : Q;
  lastReset : Z;
  endpoints : gmap string EndpointMetrics    (* the own keys of the object *)
}.

(** The state after [resetMetrics], and of a new [HealthChecker]. *)
Definition resetMetrics (now : Z) : PerformanceMetrics :=
  {| requestCount := 0;
     averageResponseTime := 0%Q;
     errorRate := 0%Q;
     lastReset := now;
     endpoints := ∅ |}.

(** [Object.values(endpoints).reduce((sum, ep) => sum + f(ep), 0)] *)
Definition sumOver (f : EndpointMetrics -> Z) (eps : gmap string EndpointMetrics) : Z :=
  fold_left (fun sum ep => sum + f ep) (map snd (map_to_list eps)) 0.

Definition recordRequest (metrics : PerformanceMetrics)
    (endpoint : string) (responseTime : Z) (isError : bool) : PerformanceMetrics :=
  let requestCount := requestCount metrics + 1 in
  let endpointMetrics :=
    match endpoints metrics !! endpoint with
    | Some ep => ep
    | None => {| count := 0; totalTime := 0; errors := 0 |}
    end in
  let endpointMetrics :=
    {| count := count endpointMetrics + 1;
       totalTime := totalTime endpointMetrics + responseTime;
       errors := if isError then errors endpointMetrics + 1 else errors endpointMetrics |} in
  let endpoints := <[endpoint := endpointMetrics]> (endpoints metrics) in
  {| requestCount := requestCount;
     averageResponseTime := (inject_Z (sumOver totalTime endpoints) / inject_Z requestCount)%Q;
     errorRate := (inject_Z (sumOver errors endpoints) / inject_Z requestCount)%Q;
     lastReset := lastReset metrics;
     endpoints := endpoints |}.

(** [withMetrics(handler, endpoint)] around a call of the handler that
    completes with [outcome]; the clock is read before and after. *)
Definition withMetrics {E R} (outcome : completion E R) (endpoint : string)
    (startTime endTime : Z) (metrics : PerformanceMetrics)
  : completion E R * PerformanceMetrics :=
  let isError := match outcome with Normal _ => false | Throw _ => true end in
  let responseTime := endTime - startTime in
  (outcome, recordRequest metrics endpoint responseTime isError).

(** A request as the recorder sees it, and a run of the recorder over
    requests in order. *)
Record Request : Type := mkRequest {
  reqEndpoint : string;
  reqTime : Z;
  reqIsError : bool
}.

Definition recordRequests (metrics : PerformanceMetrics) (reqs : list Request)
  : PerformanceMetrics :=
  fold_left (fun m r => recordRequest m (reqEndpoint r) (reqTime r) (reqIsError r)) reqs metrics.

Definition requestsTo (endpoint : string) (reqs : list Request) : list Request :=
  List.filter (fun r => String.eqb (reqEndpoint r) endpoint) reqs.

Definition totalOf (f : Request -> Z) (reqs : list Request) : Z :=
  fold_right (fun r acc => f r + acc) 0 reqs.

Definition errorsIn (reqs : list Request) : Z :=
  totalOf (fun r => if reqIsError r then 1 else 0) reqs.

(** What an endpoint's entry becomes once the requests [rs], all to that
    endpoint, are recorded on top of [before]. *)
Definition tally (before : option EndpointMetrics) (rs : list Request)
  : option EndpointMetrics :=
  match rs with
  | [] => before
  | _ :: _ =>
      let base := match before with
                  | Some ep => ep
                  | None => {| count := 0; totalTime := 0; errors := 0 |}
                  end in
      Some {| count := count base + Z.of_nat (length rs);
              totalTime := totalTime base + totalOf reqTime rs;
              errors := errors base + errorsIn rs |}
  end.

Definition zsum (l : list Z) : Z := fold_right Z.add 0 l.

(** A call of a wrapped handler: how the handler completes and the two
    clock readings around it. *)
Record Call (E R : Type) : Type := mkCall {
  callEndpoint : string;
  callOutcome : completion E R;
  callStart : Z;
  callEnd : Z
}.
Arguments mkCall {E R}.
Arguments callEndpoint {E R}.
Arguments callOutcome {E R}.
Arguments callStart {E R}.
Arguments callEnd {E R}.

Definition threw {E R} (outcome : completion E R) : bool :=
  match outcome with Normal _ => false | Throw _ => true end.

(** Wrapped calls one after the other: what each caller gets, and the
    metrics at the end. *)
Definition runWrapped {E R} (metrics : PerformanceMetrics) (calls : list (Call E R))
  : list (completion E R) * PerformanceMetrics :=
  fold_left
    (fun acc call =>
       let '(result, metrics') :=
         withMetrics (callOutcome call) (callEndpoint call) (callStart call) (callEnd call)
                     (snd acc) in
       (fst acc ++ [result], metrics'))
    calls ([], metrics).

End Metrics.

(** ** src/lib/monitoring.ts: the probes and the scheduled run *)

Module Probes.
Import JsString Monitoring.

(** [process.env] *)
Definition Env : Type := gmap string string.

(** Truthiness of [process.env[key]]: set, and not the empty string. *)
Definition isSet (env : gmap string string) (key : string) : bool :=
  match env !! key with
  | Some v => negb (String.eqb v "")
  | None => false
  end.

(** [process.env[key] || fallback] *)
Definition envOr (env : gmap string string) (key fallback : string) : string :=
  match env !! key with
  | Some v => if String.eqb v "" then fallback else v
  | None => fallback
  end.

Record Timing : Type := mkTiming {
  startedAt : Z;      (* [Date.now()] on entry *)
  endedAt : Z;        (* [Date.now()] when the response time is taken *)
  checkedAt : Z       (* [new Date()] of the result *)
}.

Definition requiredEnvVars : list string :=
  ["NEXTAUTH_SECRET"; "GOOGLE_CLIENT_ID"; "GOOGLE_CLIENT_SECRET"; "GITMESH_CE_ADMIN_EMAILS"]%string.

Definition optionalEnvVars : list string :=
  ["GITHUB_TOKEN"; "GITHUB_REPO"; "SENDGRID_API_KEY"; "FROM_EMAIL"]%string.

Definition presence (env : gmap string string) (key : string) : string :=
  if isSet env key then "configured" else "missing".

(** [checkEnvironment]; the two objects of [details] are laid out as one
    list, keys prefixed by [required.] and [optional.]. *)
Definition checkEnvironment (env : gmap string string) (t : Timing) : HealthCheck :=
  let missing := List.filter (fun key => negb (isSet env key)) requiredEnvVars in
  let optional := List.filter (fun key => negb (isSet env key)) optionalEnvVars in
  let responseTime := endedAt t - startedAt t in
  let '(status, message) :=
    if (0 <? length missing)%nat then
      (unhealthy,
       "Missing required environment variables: " +:+ String.concat ", " missing)
    else if (0 <? length optional)%nat then
      (degraded,
       "Missing optional environment variables: " +:+ String.concat ", " optional)
    else (healthy, "All required environment variables configured"%string) in
  {| name := "Environment";
     status := status;
     message := Some message;
     responseTime := Some responseTime;
     lastChecked := checkedAt t;
     details :=
       Some (map (fun key => ("required." +:+ key, presence env key)) requiredEnvVars ++
             map (fun key => ("optional." +:+ key, presence env key)) optionalEnvVars) |}.

(** What [client.testConnection()] resolves to. *)
Record ConnectionResult : Type := mkConnectionResult {
  success : bool;
  error : option string
}.

(** [checkGitHub]; [connection] is the completion of creating the client
    and testing the connection. *)
Definition checkGitHub (env : gmap string string)
    (connection : completion Thrown ConnectionResult) (t : Timing) : HealthCheck :=
  tryCatch
    (let! result := connection in
     let responseTime := endedAt t - startedAt t in
     Normal {| name := "GitHub API";
               status := if success result then healthy else unhealthy;
               message := if success result then Some "Connected successfully"%string
                          else error result;
               responseTime := Some responseTime;
               lastChecked := checkedAt t;
               details := Some [("token", if isSet env "GITHUB_TOKEN"
                                          then "configured" else "missing");
                                ("repo", envOr env "GITHUB_REPO" "not configured")]%string |})
    (fun error =>
       let responseTime := endedAt t - startedAt t in
       {| name := "GitHub API";
          status := unhealthy;
          message := Some (thrownMessage error);
          responseTime := Some responseTime;
          lastChecked := checkedAt t;
          details := Some [("error"%string, thrownDetail error)] |}).

(** [checkEmailService]; [service] is the completion of [getEmailService()]. *)
Definition checkEmailService (env : gmap string string)
    (service : completion Thrown unit) (t : Timing) : HealthCheck :=
  tryCatch
    (let! _ := service in
     let responseTime := endedAt t - startedAt t in
     Normal {| name := "Email Service";
               status := healthy;
               message := Some "Service initialized successfully"%string;
               responseTime := Some responseTime;
               lastChecked := checkedAt t;
               details := Some [("provider", envOr env "EMAIL_PROVIDER" "sendgrid");
                                ("fromEmail", envOr env "FROM_EMAIL" "not configured")]%string |})
    (fun error =>
       let responseTime := endedAt t - startedAt t in
       {| name := "Email Service";
          status := unhealthy;
          message := Some (thrownMessage error);
          responseTime := Some responseTime;
          lastChecked := checkedAt t;
          details := Some [("error"%string, thrownDetail error)] |}).

(** What the outside world answers to one run of the four probes. *)
Record Surroundings : Type := mkSurroundings {
  env : gmap string string;
  fileSystem : FsProbe;
  github : completion Thrown ConnectionResult;
  email : completion Thrown unit
}.

(** [runHealthChecks] with its four probes; every probe settles with a
    check, so [Promise.all] resolves. *)
Definition runAllHealthChecks (s : Surroundings) (t : Timing) (processUptime : Z) : SystemHealth :=
  runHealthChecks
    (Normal [checkEnvironment (env s) t;
             checkFileSystem (fileSystem s) (startedAt t) (endedAt t) (checkedAt t);
             checkGitHub (env s) (github s) t;
             checkEmailService (env s) (email s) t])
    (checkedAt t) processUptime
    (envOr (env s) "npm_package_version" "1.0.0")
    (envOr (env s) "NODE_ENV" "development").

(** [runScheduledHealthCheck]: the snapshot, and the monitor with the
    outcome recorded. *)
Definition runScheduledHealthCheck (s : Surroundings) (t : Timing) (processUptime : Z)
    (monitor : UptimeMonitor) : SystemHealth * UptimeMonitor :=
  let health := runAllHealthChecks s t processUptime in
  let isHealthy := Status_eqb (overall health) healthy in
  (health, recordCheck monitor (checkedAt t) isHealthy).

(** Scheduled runs one after the other. *)
Definition scheduledRuns (runs : list (Surroundings * Timing)) (monitor : UptimeMonitor)
  : UptimeMonitor :=
  fold_left (fun m run => snd (runScheduledHealthCheck (fst run) (snd run) 0 m)) runs monitor.

(** Checks recorded one after the other. *)
Definition recordChecks (monitor : UptimeMonitor) (checks : list (Z * bool)) : UptimeMonitor :=
  fold_left (fun m check => recordCheck m (fst check) (snd check)) checks monitor.

End Probes.

(** ** lib/error-logger and lib/error-logger.server: writing and purging *)

Module FileSink.
Import JsString Logging.

(** [writeFile(file, text, { flag: 'a' })]: the text goes to the end of
    the file, which is created when missing. *)
Definition appendFile (file text : string) : FsM unit :=
  do d <- getDir;
  match d !! file with
  | None => setDir (<[file := mkFile (Z.of_nat (String.length text)) (Some text)]> d)
  | Some f =>
      match content f with
      | Some old =>
          setDir (<[file := mkFile (size f + Z.of_nat (String.length text))
                                   (Some (old +:+ text))]> d)
      | None => throw (fsError "EISDIR")
      end
  end.

Definition newline : string := String "010"%char EmptyString.

(** The name of the log file of a day, [date] being the first ten
    characters of the ISO time. *)
Definition logFileOf (date : string) : string := "error-" +:+ date +:+ ".log".

(** [logToFile], the same in both loggers; [json] is
    [JSON.stringify] of the record with its timestamp in ISO form. *)
Definition logToFile (date json : string) (clock : nat -> string) : FsM unit :=
  catch
    (do _ <- mkdir;
     let logFile := logFileOf date in
     let logEntry := json +:+ newline in
     do _ <- appendFile logFile logEntry;
     rotateLogs clock)
    (fun error => emit (ConsoleError "Failed to write error log:")).

(** The loop of [clearLogs]; [mtime file] is [stats.mtime] of the file and
    [cutoff] the time of [cutoffDate]. *)
Fixpoint clearOlder (mtime : string -> Z) (cutoff : Z) (files : list string) : FsM unit :=
  match files with
  | [] => ret tt
  | file :: rest =>
      if negb (startsWith file "error-") || negb (endsWith file ".log")
      then clearOlder mtime cutoff rest
      else
        do stats <- stat file;
        do _ <- (if mtime file <? cutoff then unlink file else ret tt);
        clearOlder mtime cutoff rest
  end.

(** [clearLogs], the same in both loggers. *)
Definition clearLogs (mtime : string -> Z) (cutoff : Z) : FsM unit :=
  catch
    (do files <- readdir;
     clearOlder mtime cutoff files)
    (fun error => emit (ConsoleError "Failed to clear old logs:")).

(** A log file last modified before the cutoff. *)
Definition expired (mtime : string -> Z) (cutoff : Z) (file : string) : bool :=
  isLogFile file && (mtime file <? cutoff).

(** The entry of a file once [text] is appended to it. *)
Definition appended (before : option File) (text : string) : File :=
  match before with
  | None => mkFile (Z.of_nat (String.length text)) (Some text)
  | Some f =>
      mkFile (size f + Z.of_nat (String.length text))
             (match content f with Some old => Some (old +:+ text) | None => None end)
  end.

(** Whether the file can be appended to. *)
Definition writable (before : option File) : Prop :=
  match before with
  | Some {| content := None |} => False
  | _ => True
  end.

End FileSink.

(** ** lib/error-handling: application errors and the error boundaries *)

Module ErrorBoundary.
Import JsString ErrorHandling.

(** The attempt numbers of the success messages in a trace of [withRetry]. *)
Definition succeededLog (trace : list Event) : list Z :=
  flat_map (fun ev => match ev with LogInfo _ attempt _ => [attempt] | _ => [] end) trace.

Record ErrorContext : Type := mkErrorContext {
  component : option string;
  action : option string;
  userId : option string;
  timestamp : Z;
  metadata : option (list (string * string))
}.

(** [Partial<ErrorContext>] *)
Record PartialContext : Type := mkPartialContext {
  pComponent : option string;
  pAction : option string;
  pUserId : option string;
  pTimestamp : option Z;
  pMetadata : option (list (string * string))
}.

Definition noContext : PartialContext := mkPartialContext None None None None None.

(** A thrown value that is not an [AppError]: an [Error] instance, some
    other value with the [message] property it may have, or [null] or
    [undefined]. *)
Inductive Foreign : Type :=
| PlainError (message stack : string)
| OtherThing (messageProperty : option string)
| Nullish.

Section Codes.
(** The enum [ErrorCodes] of the types module, and its member used here. *)
Variable ErrorCodes : Type.
Variable VALIDATION_ERROR : ErrorCodes.

Record AppError : Type := mkAppError {
  message : string;
  code : ErrorCodes;
  statusCode : Z;
  context : ErrorContext;
  isRetryable : bool;
  originalError : option Foreign
}.

(** [new AppError(...)] at time [now]: [{ timestamp: new Date(), ...context }]. *)
Definition newAppError (now : Z) (message : string) (code : ErrorCodes) (statusCode : Z)
    (context : PartialContext) (isRetryable : bool) (originalError : option Foreign)
  : AppError :=
  {| message := message;
     code := code;
     statusCode := statusCode;
     context := {| component := pComponent context;
                   action := pAction context;
                   userId := pUserId context;
                   timestamp := match pTimestamp context with
                                | Some t => t
                                | None => now
                                end;
                   metadata := pMetadata context |};
     isRetryable := isRetryable;
     originalError := originalError |}.

Inductive Thrown : Type :=
| ThrownApp (e : AppError)
| ThrownForeign (f : Foreign).

(** What [logError] is called with. *)
Inductive Logged : Type :=
| LoggedError (msg : string) (e : AppError).

(** [x || fallback] on a string that may be missing *)
Definition orElse (x : option string) (fallback : string) : string :=
  match x with
  | Some s => if String.eqb s "" then fallback else s
  | None => fallback
  end.

(** The [TypeError] of reading [message] off [null] or [undefined]. *)
Definition readOfNullish : Foreign := PlainError "Cannot read properties of null" "TypeError".

(** [handleAsyncError(operation, context)], the operation completing with
    [outcome]. *)
Definition handleAsyncError {R} (outcome : completion Thrown R) (context : PartialContext)
    (now : Z) : completion Thrown R * list Logged :=
  match outcome with
  | Normal result => (Normal result, [])
  | Throw (ThrownApp e) =>
      (Throw (ThrownApp e), [LoggedError "Async operation failed" e])
  | Throw (ThrownForeign Nullish) =>
      (Throw (ThrownForeign readOfNullish), [])
  | Throw (ThrownForeign f) =>
      let msg := match f with
                 | PlainError m _ => orElse (Some m) "Unknown error occurred"
                 | OtherThing m => orElse m "Unknown error occurred"
                 | Nullish => "Unknown error occurred"%string
                 end in
      let appError := newAppError now msg VALIDATION_ERROR 500 context false (Some f) in
      (Throw (ThrownApp appError), [LoggedError "Async operation failed" appError])
  end.

(** [withErrorHandling(handler)], the handler completing with [outcome]. *)
Definition withErrorHandling {R} (outcome : completion Thrown R) (now : Z)
  : completion Thrown R * list Logged :=
  match outcome with
  | Normal result => (Normal result, [])
  | Throw (ThrownApp e) => (Throw (ThrownApp e), [])
  | Throw (ThrownForeign f) =>
      let appError :=
        newAppError now
          (match f with
           | PlainError m _ => m
           | _ => "Unknown error occurred"%string
           end)
          VALIDATION_ERROR 500
          (mkPartialContext (Some "api-handler"%string) None None None None)
          false
          (match f with
           | PlainError _ _ => Some f
           | _ => None
           end) in
      (Throw (ThrownApp appError), [LoggedError "API handler error" appError])
  end.

Definition isAppError {R} (c : completion Thrown R) : Prop :=
  exists e, c = Throw (ThrownApp e).

End Codes.

End ErrorBoundary.

(** ** Sample inputs *)

Module Samples.
Import JsString ErrorHandling Monitoring Logging Metrics Probes FileSink.

(** Everything answers, but no GitHub token is configured. *)
Definition noGithubToken : Surroundings :=
  {| env := list_to_map [("NEXTAUTH_SECRET", "s"); ("GOOGLE_CLIENT_ID", "id");
                         ("GOOGLE_CLIENT_SECRET", "cs"); ("GITMESH_CE_ADMIN_EMAILS", "a@b.c");
                         ("GITHUB_REPO", "o/r"); ("SENDGRID_API_KEY", "k");
                         ("FROM_EMAIL", "x@y.z")]%string;
     fileSystem := mkFsProbe (Normal tt) (Normal "{}"%string) (fun _ => Normal tt) (Normal tt);
     github := Normal (mkConnectionResult true None);
     email := Normal tt |}.

Definition twoRuns : list (Surroundings * Timing) :=
  [(noGithubToken, mkTiming 0 5 5); (noGithubToken, mkTiming 60000 60004 60004)].

(** Three calls of wrapped handlers, the second of which throws. *)
Definition threeCalls : list (Call string nat) :=
  [mkCall "/api/a" (Normal 1%nat) 0 30;
   mkCall "/api/b" (Throw "boom") 40 50;
   mkCall "/api/a" (Normal 2%nat) 60 80]%string.

(** An operation that the network fails once. *)
Definition flaky (i : nat) : completion Error nat :=
  if (i =? 0)%nat then Throw (mkError "network unreachable" None None) else Normal 7%nat.

Definition noAttempts : RetryConfig := mkRetryConfig 0 1000 10000 2 None.

(** A directory whose file of the day stands at the size ceiling. *)
Definition fullDay : gmap string File :=
  {[ "error-2024-03-01.log"%string := mkFile (10 * 1024 * 1024) (Some "{}"%string) ]}.

End Samples.

(** * Properties *)

(** ** Strings *)

Section StringFacts.
Import JsString.

Lemma prefix_iff (p s : string) :
  String.prefix p s = true <-> exists post, s = p +:+ post.
Proof.
  revert s. induction p as [|c p IH]; intros s; simpl.
  - destruct s; (split; [intros _; eexists; reflexivity | reflexivity]).
  - destruct s as [|c' s].
    + split; [discriminate | intros [post H]; discriminate].
    + simpl. destruct (ascii_dec c c') as [->|Hne].
      * rewrite IH. split; intros [post H]; exists post.
        -- now rewrite H.
        -- now injection H.
      * split; [discriminate | intros [post H]; injection H; congruence].
Qed.

Lemma append_assoc (a b c : string) : (a +:+ b) +:+ c = a +:+ (b +:+ c).
Proof. induction a as [|x a IH]; simpl; [reflexivity | f_equal; exact IH]. Qed.

Lemma append_nil_r (a : string) : a +:+ "" = a.
Proof. induction a as [|x a IH]; simpl; [reflexivity | f_equal; exact IH]. Qed.

(** [includes] decides the presence of an occurrence. *)
Lemma includes_iff (s p : string) :
  includes s p = true <-> exists pre post, s = pre +:+ p +:+ post.
Proof.
  induction s as [|c s IH]; cbn [includes].
  - rewrite orb_false_r, prefix_iff. split.
    + intros [post H]. exists ""%string, post. exact H.
    + intros [[|x pre] [post H]]; [exists post; exact H | discriminate].
  - rewrite orb_true_iff, prefix_iff, IH. split.
    + intros [[post H] | [pre [post H]]].
      * exists ""%string, post. exact H.
      * exists (String c pre), post. simpl. now rewrite H.
    + intros [[|x pre] [post H]].
      * left. exists post. exact H.
      * right. simpl in H. injection H as _ H. exists pre, post. exact H.
Qed.

Lemma toLowerCase_app (a b : string) :
  toLowerCase (a +:+ b) = toLowerCase a +:+ toLowerCase b.
Proof. induction a as [|x a IH]; simpl; [reflexivity | f_equal; exact IH]. Qed.

Lemma toLowerCase_split (s x y : string) :
  toLowerCase s = x +:+ y ->
  exists a b, s = a +:+ b /\ toLowerCase a = x /\ toLowerCase b = y.
Proof.
  revert s. induction x as [|c x IH]; intros s H; simpl in H.
  - exists ""%string, s. auto.
  - destruct s as [|c' s]; [discriminate|]. simpl in H. injection H as Hc H.
    destruct (IH _ H) as (a & b & -> & Ha & Hb).
    exists (String c' a), b. simpl. rewrite Ha, Hc. auto.
Qed.
End StringFacts.

(** ** The retry engine *)

Section RetryFacts.
Import JsString ErrorHandling.
Context {T : Type}.
Variable operation : nat -> completion Error T.
Variable config : RetryConfig.

Let n := maxAttempts config.

(** The loop ends: fuel for the attempts that are left is enough. *)
Lemma withRetryLoop_total (fuel calls : nat) (lastError : option Error) (attempt : Z) :
  (Z.to_nat (n - attempt) <= fuel)%nat ->
  exists r, withRetryLoop operation config fuel calls lastError attempt = Some r.
Proof.
  revert calls lastError attempt.
  induction fuel as [|fuel IH]; intros calls lastError attempt Hfuel; simpl; fold n.
  - destruct (Z.ltb_spec attempt n); [lia | eauto].
  - destruct (Z.ltb_spec attempt n); [|eauto].
    destruct (operation calls) as [result|error]; [eauto|].
    destruct (negb _ || _); [eauto|].
    destruct (IH (S calls) (Some error) (attempt + 1)) as [[r tr] Hr]; [lia|].
    rewrite Hr. eauto.
Qed.

(** Each sleep lasts what the backoff formula gives for the attempts
    made so far. *)
Lemma withRetryLoop_sleeps (fuel calls : nat) (lastError : option Error) (attempt : Z) r trace :
  withRetryLoop operation config fuel calls lastError attempt = Some (r, trace) ->
  sleeps trace =
    map (fun j => backoffDelay config (attempt + Z.of_nat j))
        (seq 1 (length (sleeps trace))).
Proof.
  revert calls lastError attempt r trace.
  induction fuel as [|fuel IH]; intros calls lastError attempt r trace; simpl; fold n.
  - destruct (attempt <? n); [discriminate|]. intros [= <- <-]. reflexivity.
  - destruct (attempt <? n); [|intros [= <- <-]; reflexivity].
    destruct (operation calls) as [result|error].
    + intros [= <- <-]. destruct (0 <? attempt); reflexivity.
    + destruct (negb _ || _); [intros [= <- <-]; reflexivity|].
      destruct (withRetryLoop _ _ fuel _ _ _) as [[r' tr]|] eqn:Hrec; [|discriminate].
      intros [= <- <-]. simpl. apply IH in Hrec. rewrite Hrec at 1.
      f_equal.
      rewrite <- (seq_shift (length (sleeps tr)) 1), map_map.
      apply List.map_ext. intros j. f_equal. lia.
Qed.

(** The invocations are numbered consecutively, and between two of them
    there is exactly one sleep. *)
Lemma withRetryLoop_invocations (fuel calls : nat) (lastError : option Error) (attempt : Z) r trace :
  withRetryLoop operation config fuel calls lastError attempt = Some (r, trace) ->
  attempt < n ->
  invocations trace = seq calls (S (length (sleeps trace))).
Proof.
  revert calls lastError attempt r trace.
  induction fuel as [|fuel IH]; intros calls lastError attempt r trace; simpl; fold n.
  - destruct (Z.ltb_spec attempt n); [discriminate | lia].
  - destruct (Z.ltb_spec attempt n); [|lia].
    destruct (operation calls) as [result|error].
    + intros [= <- <-] _. destruct (0 <? attempt); reflexivity.
    + destruct (negb _ || _) eqn:Hstop; [intros [= <- <-]; reflexivity|].
      destruct (withRetryLoop _ _ fuel _ _ _) as [[r' tr]|] eqn:Hrec; [|discriminate].
      intros [= <- <-] _. simpl. f_equal.
      apply orb_false_iff in Hstop as [_ Hstop]. apply Z.leb_gt in Hstop.
      apply IH in Hrec; [exact Hrec | exact Hstop].
Qed.

Hypothesis always_fails :
  forall i, exists e,
    operation i = Throw e /\ isErrorRetryable e (retryableErrors config) = true.

Lemma withRetryLoop_exhausts (fuel calls : nat) (lastError : option Error) (attempt : Z) :
  0 <= attempt < n ->
  (Z.to_nat (n - attempt) <= fuel)%nat ->
  exists e trace,
    withRetryLoop operation config fuel calls lastError attempt = Some (Throw (Some e), trace) /\
    invocations trace = seq calls (Z.to_nat (n - attempt)) /\
    operation (calls + Z.to_nat (n - attempt) - 1)%nat = Throw e.
Proof.
  revert calls lastError attempt.
  induction fuel as [|fuel IH]; intros calls lastError attempt Hatt Hfuel; [lia|].
  simpl; fold n.
  destruct (Z.ltb_spec attempt n); [|lia].
  destruct (always_fails calls) as (e & Hop & Hretry). rewrite Hop, Hretry. simpl.
  destruct (Z.leb_spec n (attempt + 1)) as [Hlast | Hmore].
  - exists e, [Invoke calls; LogError "Operation failed after all retries" e (attempt + 1) n true].
    replace (Z.to_nat (n - attempt)) with 1%nat by lia.
    split; [reflexivity|]. split; [reflexivity|].
    replace (calls + 1 - 1)%nat with calls by lia. exact Hop.
  - destruct (IH (S calls) (Some e) (attempt + 1)) as (e' & tr & Hrun & Hinv & Hlast); [lia | lia |].
    rewrite Hrun. eexists e', _. split; [reflexivity|].
    replace (Z.to_nat (n - attempt)) with (S (Z.to_nat (n - (attempt + 1)))) by lia.
    split.
    + simpl. f_equal. exact Hinv.
    + rewrite <- Hlast. f_equal. lia.
Qed.
End RetryFacts.

Section RetryClaims.
Import JsString ErrorHandling.
Context {T : Type}.

(** C1.  Under a configuration with [maxAttempts = n], [n >= 1], an
    operation each of whose invocations fails with a retryable error is
    invoked exactly [n] times by [withRetry] (invocations 0 to [n-1], in
    order), and [withRetry] throws the error of the last of them. *)
Theorem withRetry_exhausts_attempts
    (operation : nat -> completion Error T) (config : RetryConfig) :
  1 <= maxAttempts config ->
  (forall i, exists e,
      operation i = Throw e /\ isErrorRetryable e (retryableErrors config) = true) ->
  exists e trace,
    withRetry operation config = Some (Throw (Some e), trace) /\
    invocations trace = seq 0 (Z.to_nat (maxAttempts config)) /\
    length (invocations trace) = Z.to_nat (maxAttempts config) /\
    operation (Z.to_nat (maxAttempts config) - 1)%nat = Throw e.
Proof.
  intros Hn Hfail. unfold withRetry.
  destruct (withRetryLoop_exhausts operation config Hfail
              (Z.to_nat (maxAttempts config)) 0 None 0)
    as (e & trace & Hrun & Hinv & Hlast); [lia | lia |].
  rewrite Z.sub_0_r in Hinv, Hlast.
  exists e, trace. repeat split; try assumption.
  rewrite Hinv. apply length_seq.
Qed.

(** C5.  When [maxAttempts >= 1] and the first invocation fails with an
    error that is not retryable, [withRetry] invokes the operation once,
    throws that error, and never sleeps. *)
Theorem withRetry_non_retryable_once
    (operation : nat -> completion Error T) (config : RetryConfig) (e : Error) :
  1 <= maxAttempts config ->
  operation 0%nat = Throw e ->
  isErrorRetryable e (retryableErrors config) = false ->
  exists trace,
    withRetry operation config = Some (Throw (Some e), trace) /\
    invocations trace = [0%nat] /\
    sleeps trace = [].
Proof.
  intros Hn Hop Hno. unfold withRetry.
  destruct (Z.to_nat (maxAttempts config)) as [|fuel] eqn:Hfuel; [lia|].
  simpl. destruct (Z.ltb_spec 0 (maxAttempts config)); [|lia].
  rewrite Hop, Hno. simpl. eexists. repeat split.
Qed.

(** C4.  [withRetry] always ends, and the wait that follows the failed
    attempt number [k] (from 1) is
    [min (baseDelay * backoffMultiplier ^ (k - 1)) maxDelay]: the waits of
    a run are these values for [k] from 1 to the number of invocations
    less one.  With [baseDelay = 1000], [backoffMultiplier = 2] and
    [maxDelay = 10000] seven failing attempts wait 1000, 2000, 4000, 8000,
    10000 and 10000. *)
Theorem withRetry_backoff_delays :
  (forall (operation : nat -> completion Error T) (config : RetryConfig),
      exists r trace,
        withRetry operation config = Some (r, trace) /\
        sleeps trace =
          map (fun k => Z.min (baseDelay config *
                               backoffMultiplier config ^ (Z.of_nat k - 1))
                              (maxDelay config))
              (seq 1 (length (invocations trace) - 1))) /\
  (exists trace,
      withRetry (fun _ => @Throw Error T (mkError "timeout" None None))
                (mkRetryConfig 7 1000 10000 2 None)
        = Some (Throw (Some (mkError "timeout" None None)), trace) /\
      sleeps trace = [1000; 2000; 4000; 8000; 10000; 10000]).
Proof.
  split.
  - intros operation config.
    destruct (withRetryLoop_total operation config
                (Z.to_nat (maxAttempts config)) 0 None 0) as [[r trace] Hrun]; [lia|].
    exists r, trace. split; [exact Hrun|].
    unfold withRetry in *.
    rewrite (withRetryLoop_sleeps _ _ _ _ _ _ _ _ Hrun).
    destruct (Z.ltb_spec 0 (maxAttempts config)) as [Hpos | Hnone].
    + rewrite (withRetryLoop_invocations _ _ _ _ _ _ _ _ Hrun Hpos).
      rewrite length_seq. simpl. rewrite Nat.sub_0_r. reflexivity.
    + destruct (Z.to_nat (maxAttempts config)); simpl in Hrun;
        (destruct (Z.ltb_spec 0 (maxAttempts config)); [lia|]);
        injection Hrun as <- <-; reflexivity.
  - set (e := mkError "timeout" None None).
    assert (He : isErrorRetryable e None = true) by reflexivity.
    set (config := mkRetryConfig 7 1000 10000 2 None).
    set (operation := fun _ : nat => @Throw Error T e).
    assert (Hfail : forall i : nat, exists e',
               operation i = Throw e' /\
               isErrorRetryable e' (retryableErrors config) = true)
      by (intros i; exists e; split; [reflexivity | exact He]).
    destruct (withRetryLoop_exhausts operation config Hfail 7 0 None 0)
      as (e' & trace & Hrun & Hinv & Hlast); [simpl; lia | simpl; lia |].
    injection Hlast as <-.
    exists trace. split; [exact Hrun|].
    pose proof (withRetryLoop_invocations _ _ _ _ _ _ _ _ Hrun eq_refl) as Hcount.
    rewrite Hinv in Hcount. apply (f_equal (@length nat)) in Hcount.
    rewrite !length_seq in Hcount. simpl in Hcount. injection Hcount as Hcount.
    rewrite (withRetryLoop_sleeps _ _ _ _ _ _ _ _ Hrun), <- Hcount. reflexivity.
Qed.
End RetryClaims.

Section ClassifierClaims.
Import JsString ErrorHandling.

Lemma codeIs_iff (error : Error) (c : string) :
  codeIs error c = true <-> code error = Some c.
Proof.
  unfold codeIs. destruct (code error) as [c'|].
  - rewrite String.eqb_eq. split; congruence.
  - split; discriminate.
Qed.

Lemma includes_lower_iff (s p : string) :
  includes (toLowerCase s) (toLowerCase p) = true <-> occursIgnoringCase p s.
Proof.
  rewrite includes_iff. split.
  - intros (pre & post & H).
    apply toLowerCase_split in H as (a & rest & -> & Ha & Hrest).
    apply toLowerCase_split in Hrest as (u & b & -> & Hu & Hb).
    exists a, u, b. split; [reflexivity | exact Hu].
  - intros (pre & u & post & -> & Hu).
    exists (toLowerCase pre), (toLowerCase post).
    now rewrite !toLowerCase_app, Hu.
Qed.

End ClassifierClaims.

(** ** Health checks *)

Section HealthClaims.
Import JsString Monitoring.

Lemma existsb_status_Exists (st : Status) (checks : list HealthCheck) :
  existsb (fun check => Status_eqb (status check) st) checks = true <->
  Exists (fun check => status check = st) checks.
Proof.
  rewrite existsb_exists, List.Exists_exists.
  split; intros (c & Hin & Hc); exists c; (split; [exact Hin|]);
    destruct (status c), st; simpl in *; congruence.
Qed.

Lemma existsb_Permutation {A} (f : A -> bool) (l l' : list A) :
  Permutation l l' -> existsb f l = existsb f l'.
Proof.
  induction 1 as [|x l l' _ IH|x y l|l l' l'' _ IH1 _ IH2]; simpl.
  - reflexivity.
  - now rewrite IH.
  - destruct (f x), (f y); reflexivity.
  - congruence.
Qed.

Lemma overallOf_cases (checks : list HealthCheck) :
  (overallOf checks = unhealthy <->
     Exists (fun check => status check = unhealthy) checks) /\
  (overallOf checks = degraded <->
     ~ Exists (fun check => status check = unhealthy) checks /\
     Exists (fun check => status check = degraded) checks) /\
  (overallOf checks = healthy <->
     ~ Exists (fun check => status check = unhealthy) checks /\
     ~ Exists (fun check => status check = degraded) checks).
Proof.
  rewrite <- !existsb_status_Exists. unfold overallOf.
  destruct (existsb _ checks); [|destruct (existsb _ checks)];
    repeat split; intros; try tauto; try discriminate;
    try (intros []; discriminate); intuition discriminate.
Qed.

(** C2.  [runHealthChecks] reports [unhealthy] if some check is
    unhealthy, otherwise [degraded] if some check is degraded, otherwise
    [healthy]; it reports the same for any reordering of the checks; and
    [healthy, degraded, healthy] gives [degraded],
    [healthy, unhealthy, degraded] gives [unhealthy], all-healthy gives
    [healthy]. *)
Theorem runHealthChecks_overall
    (checks checks' : list HealthCheck) (now up : Z) (ver env : string) :
  Permutation checks checks' ->
  let run := fun cs => overall (runHealthChecks (Normal cs) now up ver env) in
  (run checks = unhealthy <->
     Exists (fun check => status check = unhealthy) checks) /\
  (run checks = degraded <->
     ~ Exists (fun check => status check = unhealthy) checks /\
     Exists (fun check => status check = degraded) checks) /\
  (run checks = healthy <->
     ~ Exists (fun check => status check = unhealthy) checks /\
     ~ Exists (fun check => status check = degraded) checks) /\
  (Forall (fun check => status check = healthy) checks -> run checks = healthy) /\
  run checks' = run checks /\
  run (map checkWith [healthy; degraded; healthy]) = degraded /\
  run (map checkWith [healthy; unhealthy; degraded]) = unhealthy /\
  run (map checkWith [healthy; healthy; healthy; healthy]) = healthy.
Proof.
  intros Hperm run. unfold run. simpl.
  destruct (overallOf_cases checks) as (Hu & Hd & Hh).
  split; [exact Hu|]. split; [exact Hd|]. split; [exact Hh|].
  split; [|split; [|repeat split]].
  - intros Hall. apply Hh. rewrite List.Forall_forall in Hall.
    split; intros Hex; apply List.Exists_exists in Hex as (c & Hin & Hc);
      rewrite (Hall c Hin) in Hc; discriminate.
  - unfold overallOf.
    now rewrite <- !(existsb_Permutation _ _ _ Hperm).
Qed.

Lemma checkFileSystem_outcome (fs : FsProbe) (t0 t1 t2 : Z) :
  match firstFailure fs with
  | None =>
      coreStepsSucceed fs /\
      checkFileSystem fs t0 t1 t2 =
        mkHealthCheck "File System" healthy (Some "Read/write operations successful"%string)
                      (Some (t1 - t0)) t2 None
  | Some error =>
      ~ coreStepsSucceed fs /\
      checkFileSystem fs t0 t1 t2 =
        mkHealthCheck "File System" unhealthy (Some (thrownMessage error))
                      (Some (t1 - t0)) t2 (Some [("error"%string, thrownDetail error)])
  end.
Proof.
  unfold firstFailure, coreStepsSucceed, succeeds, checkFileSystem.
  destruct (writeFile fs) as [[]|e1] eqn:Hw; simpl.
  - destruct (readFile fs) as [content|e2] eqn:Hr; simpl.
    + destruct (parseJSON fs content) as [[]|e3] eqn:Hp; simpl.
      * split; [|reflexivity]. split; [eauto|]. exists content. rewrite Hp. eauto.
      * split; [|reflexivity]. intros (_ & c & [= <-] & [a Ha]). congruence.
    + split; [|reflexivity]. intros (_ & c & Hc & _). discriminate.
  - split; [|reflexivity]. intros ([a Ha] & _). discriminate.
Qed.

(** C8, as the code has it.  [checkFileSystem] returns [healthy] exactly
    when writing the marker file, reading it back and parsing it succeed;
    a failure of one of these three steps gives [unhealthy] with the
    message and detail of the error caught; a failure of the final delete
    is ignored and does not change the result. *)
Theorem checkFileSystem_status (fs : FsProbe) (t0 t1 t2 : Z) :
  (status (checkFileSystem fs t0 t1 t2) = healthy <-> coreStepsSucceed fs) /\
  (~ coreStepsSucceed fs ->
   exists error,
     firstFailure fs = Some error /\
     status (checkFileSystem fs t0 t1 t2) = unhealthy /\
     message (checkFileSystem fs t0 t1 t2) = Some (thrownMessage error) /\
     details (checkFileSystem fs t0 t1 t2) = Some [("error"%string, thrownDetail error)]) /\
  (forall outcome,
     checkFileSystem (mkFsProbe (writeFile fs) (readFile fs) (parseJSON fs) outcome) t0 t1 t2
     = checkFileSystem fs t0 t1 t2).
Proof.
  assert (Hunlink : forall outcome,
             checkFileSystem (mkFsProbe (writeFile fs) (readFile fs) (parseJSON fs) outcome)
                             t0 t1 t2
             = checkFileSystem fs t0 t1 t2) by reflexivity.
  pose proof (checkFileSystem_outcome fs t0 t1 t2) as H.
  destruct (firstFailure fs) as [error|]; destruct H as [Hcore Hres];
    rewrite Hres in *; simpl.
  - split; [split; [discriminate | tauto]|]. split; [|exact Hunlink].
    intros _. exists error. auto.
  - split; [tauto|]. split; [tauto | exact Hunlink].
Qed.

(** C8, as stated, fails: when only the final delete fails the check is
    still [healthy]. *)
Lemma checkFileSystem_cleanup_failure_is_healthy :
  status (checkFileSystem cleanupFails 0 1 1) = healthy /\
  ~ allStepsSucceed cleanupFails /\
  ~ (status (checkFileSystem cleanupFails 0 1 1) = healthy <-> allStepsSucceed cleanupFails).
Proof.
  assert (Hno : ~ allStepsSucceed cleanupFails)
    by (intros (_ & a & Ha); discriminate).
  split; [reflexivity|]. split; [exact Hno|].
  intros [H _]. apply Hno, H. reflexivity.
Qed.
End HealthClaims.

(** ** Uptime statistics *)

Section UptimeClaims.
Import JsString Monitoring.

Lemma sliceLast_mostRecent {A} (n : nat) (l : list A) :
  sliceLast n l = mostRecent n l.
Proof. unfold sliceLast, mostRecent. now rewrite firstn_rev, rev_involutive. Qed.

Lemma length_sliceLast {A} (n : nat) (l : list A) :
  length (sliceLast n l) = Nat.min n (length l).
Proof. unfold sliceLast. rewrite length_skipn. lia. Qed.

Lemma mostRecent_min {A} (n : nat) (l : list A) :
  mostRecent (Nat.min n (length l)) l = mostRecent n l.
Proof.
  unfold mostRecent. f_equal.
  destruct (Nat.le_gt_cases n (length l)) as [Hle | Hgt].
  - now rewrite Nat.min_l.
  - rewrite Nat.min_r by lia.
    rewrite !firstn_all2; rewrite ?length_rev; [reflexivity | lia | lia].
Qed.

(** Rounding to hundredths stays within half a hundredth. *)
Lemma round_hundredths (x : Q) :
  (Qabs (inject_Z (MathRound (x * 100)) / 100 - x) <= 1 # 200)%Q.
Proof.
  unfold MathRound.
  pose proof (Qfloor_le (x * 100 + (1 # 2))) as Hle.
  pose proof (Qlt_floor (x * 100 + (1 # 2))) as Hlt.
  rewrite inject_Z_plus in Hlt. change (inject_Z 1) with 1%Q in Hlt.
  set (f := inject_Z _) in *. clearbody f.
  apply Qabs_Qle_condition.
  unfold Qdiv. change (/ 100)%Q with (1 # 100)%Q. split; lra.
Qed.

Lemma div_pos_iff (a b : Z) : 0 < b -> (0 < a / b <-> b <= a).
Proof.
  intros Hb. split.
  - intros Hq. destruct (Z.lt_ge_cases a b) as [Hlt | Hge]; [|exact Hge].
    exfalso. destruct (Z.lt_ge_cases a 0) as [Hneg | Hnn].
    + assert (a / b < 0) by (apply Z.div_lt_upper_bound; lia). lia.
    + rewrite Z.div_small in Hq by lia. lia.
  - intros Hle. apply Z.div_str_pos. lia.
Qed.

(** What [formatUptime] shows, by the size of the duration. *)
Lemma formatUptime_cases (ms : Z) :
  (ms < 60000 -> formatUptime ms = ofZ (ms / 1000) +:+ "s") /\
  (60000 <= ms < 3600000 ->
     formatUptime ms = ofZ (ms / 60000) +:+ "m " +:+ ofZ ((ms / 1000) mod 60) +:+ "s") /\
  (3600000 <= ms < 86400000 ->
     formatUptime ms = ofZ (ms / 3600000) +:+ "h " +:+ ofZ ((ms / 60000) mod 60) +:+ "m") /\
  (86400000 <= ms ->
     formatUptime ms =
       ofZ (ms / 86400000) +:+ "d " +:+ ofZ ((ms / 3600000) mod 24) +:+ "h " +:+
       ofZ ((ms / 60000) mod 60) +:+ "m").
Proof.
  unfold formatUptime.
  replace (ms / 1000 / 60) with (ms / 60000) by (rewrite Z.div_div; [reflexivity | lia | lia]).
  replace (ms / 60000 / 60) with (ms / 3600000) by (rewrite Z.div_div; [reflexivity | lia | lia]).
  replace (ms / 3600000 / 24) with (ms / 86400000) by (rewrite Z.div_div; [reflexivity | lia | lia]).
  pose proof (div_pos_iff ms 86400000 eq_refl) as Hd.
  pose proof (div_pos_iff ms 3600000 eq_refl) as Hh.
  pose proof (div_pos_iff ms 60000 eq_refl) as Hm.
  destruct (Z.ltb_spec 0 (ms / 86400000)); [|destruct (Z.ltb_spec 0 (ms / 3600000));
    [|destruct (Z.ltb_spec 0 (ms / 60000))]];
    repeat split; intros Hrange; try (exfalso; lia);
    rewrite ?Z.rem_mod_nonneg; try reflexivity; try lia;
    apply Z.div_pos; lia.
Qed.

Lemma getStats_availability (m : UptimeMonitor) (now : Z) :
  ring m <> [] ->
  (availability (getStats m now) ==
   inject_Z (MathRound (natQ (countTrue (sliceLast 20 (ring m))) /
                        natQ (length (sliceLast 20 (ring m))) * 100 * 100)) / 100)%Q.
Proof.
  intros Hne. unfold getStats, countTrue. simpl.
  destruct (Nat.ltb_spec 0 (length (sliceLast 20 (ring m)))) as [_ | Hzero]; [reflexivity|].
  rewrite length_sliceLast in Hzero. destruct (ring m); [congruence | simpl in Hzero; lia].
Qed.

(** C9, as the code has it.  With at least one recorded check,
    [getStats] takes the most recent [min 20 length] checks, counts the
    true ones, and reports as availability the multiple of 0.01 nearest to
    100 times their proportion (15 true among 20 give 75); the uptime text
    shows days, hours and minutes from one day on, hours and minutes from
    one hour on, minutes and seconds from one minute on, and seconds alone
    below one minute. *)
Theorem getStats_of_recorded_checks (m : UptimeMonitor) (now : Z) :
  ring m <> [] ->
  let stats := getStats m now in
  let window := Nat.min 20 (length (ring m)) in
  let trues := countTrue (mostRecent window (ring m)) in
  recentChecks stats = window /\
  successfulChecks stats = trues /\
  (exists k : Z, availability stats == inject_Z k / 100)%Q /\
  (Qabs (availability stats - 100 * natQ trues / natQ window) <= 1 # 200)%Q /\
  (window = 20%nat -> trues = 15%nat -> availability stats == 75)%Q /\
  uptimeFormatted stats = formatUptime (now - startTime m) /\
  forall ms,
    (ms < 60000 -> formatUptime ms = ofZ (ms / 1000) +:+ "s") /\
    (60000 <= ms < 3600000 ->
       formatUptime ms = ofZ (ms / 60000) +:+ "m " +:+ ofZ ((ms / 1000) mod 60) +:+ "s") /\
    (3600000 <= ms < 86400000 ->
       formatUptime ms = ofZ (ms / 3600000) +:+ "h " +:+ ofZ ((ms / 60000) mod 60) +:+ "m") /\
    (86400000 <= ms ->
       formatUptime ms =
         ofZ (ms / 86400000) +:+ "d " +:+ ofZ ((ms / 3600000) mod 24) +:+ "h " +:+
         ofZ ((ms / 60000) mod 60) +:+ "m").
Proof.
  intros Hne stats window trues.
  pose proof (getStats_availability m now Hne) as Havail. fold stats in Havail.
  assert (Hlen : length (sliceLast 20 (ring m)) = window) by apply length_sliceLast.
  assert (Htrues : countTrue (sliceLast 20 (ring m)) = trues)
    by (unfold trues, window; now rewrite mostRecent_min, sliceLast_mostRecent).
  rewrite Hlen, Htrues in Havail.
  assert (Hwindow : (0 < window)%nat)
    by (unfold window; destruct (ring m); [congruence | simpl; lia]).
  split; [exact Hlen|]. split; [exact Htrues|].
  split; [eexists; exact Havail|].
  split; [|split; [|split; [reflexivity | apply formatUptime_cases]]].
  - rewrite Havail.
    assert (Hexact : (100 * natQ trues / natQ window == natQ trues / natQ window * 100)%Q).
    { field. unfold natQ, Qeq. simpl. lia. }
    rewrite Hexact. apply round_hundredths.
  - intros Hw Ht. rewrite Havail, Hw, Ht. reflexivity.
Qed.

(** C9, as stated, fails: after one day, one hour, one minute and one
    second the uptime text shows three units, not two. *)
Lemma getStats_uptime_three_units :
  ring dayOldMonitor <> [] /\
  uptimeFormatted (getStats dayOldMonitor dayOldNow) = "1d 1h 1m"%string /\
  unitsShown (uptimeFormatted (getStats dayOldMonitor dayOldNow)) <> 2%nat.
Proof. split; [discriminate|]. split; [reflexivity | discriminate]. Qed.

(** C10.  Before any check is recorded, [getStats] reports an
    availability of 100 and zero for [successfulChecks], [recentChecks]
    and [totalChecks]. *)
Theorem getStats_without_checks (start now : Z) :
  ring (newUptimeMonitor start) = [] /\
  (availability (getStats (newUptimeMonitor start) now) == 100)%Q /\
  successfulChecks (getStats (newUptimeMonitor start) now) = 0%nat /\
  recentChecks (getStats (newUptimeMonitor start) now) = 0%nat /\
  totalChecks (getStats (newUptimeMonitor start) now) = 0%nat.
Proof. repeat split. Qed.
End UptimeClaims.

(** ** The order of file names *)

Section OrderFacts.
Import JsString.

Lemma ascii_compare_refl (c : ascii) : Ascii.compare c c = Eq.
Proof. unfold Ascii.compare. apply N.compare_refl. Qed.

Lemma ascii_compare_lt_trans (a b c : ascii) :
  Ascii.compare a b = Lt -> Ascii.compare b c = Lt -> Ascii.compare a c = Lt.
Proof.
  unfold Ascii.compare. rewrite !N.compare_lt_iff. apply N.lt_trans.
Qed.

Lemma string_compare_refl (s : string) : String.compare s s = Eq.
Proof. induction s as [|c s IH]; simpl; [reflexivity|]. now rewrite ascii_compare_refl. Qed.

Lemma string_compare_lt_trans (a b c : string) :
  String.compare a b = Lt -> String.compare b c = Lt -> String.compare a c = Lt.
Proof.
  revert b c. induction a as [|x a IH]; intros [|y b] [|z c]; simpl; try congruence.
  destruct (Ascii.compare x y) eqn:Hxy; try discriminate;
    destruct (Ascii.compare y z) eqn:Hyz; try discriminate; intros Hab Hbc.
  - apply Ascii.compare_eq_iff in Hxy as ->. rewrite Hyz. eapply IH; eassumption.
  - apply Ascii.compare_eq_iff in Hxy as ->. now rewrite Hyz.
  - apply Ascii.compare_eq_iff in Hyz as <-. now rewrite Hxy.
  - now rewrite (ascii_compare_lt_trans _ _ _ Hxy Hyz).
Qed.

Lemma string_ltb_irrefl (s : string) : String.ltb s s = false.
Proof. unfold String.ltb. now rewrite string_compare_refl. Qed.

Lemma string_ltb_trans (a b c : string) :
  String.ltb a b = true -> String.ltb b c = true -> String.ltb a c = true.
Proof.
  unfold String.ltb.
  destruct (String.compare a b) eqn:Hab; try discriminate.
  destruct (String.compare b c) eqn:Hbc; try discriminate.
  now rewrite (string_compare_lt_trans _ _ _ Hab Hbc).
Qed.

Lemma string_leb_trans (a b c : string) :
  String.leb a b = true -> String.leb b c = true -> String.leb a c = true.
Proof.
  unfold String.leb.
  destruct (String.compare a b) eqn:Hab; try discriminate; intros _.
  - now apply String.compare_eq_iff in Hab as ->.
  - destruct (String.compare b c) eqn:Hbc; try discriminate; intros _.
    + apply String.compare_eq_iff in Hbc as <-. now rewrite Hab.
    + now rewrite (string_compare_lt_trans _ _ _ Hab Hbc).
Qed.

Lemma string_leb_neq_ltb (a b : string) :
  String.leb a b = true -> a <> b -> String.ltb a b = true.
Proof.
  unfold String.leb, String.ltb.
  destruct (String.compare a b) eqn:Hab; try discriminate; [|reflexivity].
  intros _ Hne. now apply String.compare_eq_iff in Hab.
Qed.

Lemma string_compare_app (pre x y : string) :
  String.compare (pre +:+ x) (pre +:+ y) = String.compare x y.
Proof.
  induction pre as [|c pre IH]; simpl; [reflexivity|].
  now rewrite ascii_compare_refl.
Qed.

(** *** Sorted lists *)

Lemma StronglySorted_app {A} (R : A -> A -> Prop) (l1 l2 : list A) :
  StronglySorted R l1 -> StronglySorted R l2 ->
  (forall x y, In x l1 -> In y l2 -> R x y) ->
  StronglySorted R (l1 ++ l2).
Proof.
  induction l1 as [|a l1 IH]; intros H1 H2 Hcross; simpl; [exact H2|].
  apply StronglySorted_inv in H1 as [H1 Ha].
  constructor.
  - apply IH; [exact H1 | exact H2 | intros x y Hx Hy; apply Hcross; simpl; auto].
  - apply List.Forall_app. split; [exact Ha|].
    apply List.Forall_forall. intros y Hy. apply Hcross; simpl; auto.
Qed.

Lemma StronglySorted_app_inv {A} (R : A -> A -> Prop) (l1 l2 : list A) :
  StronglySorted R (l1 ++ l2) ->
  StronglySorted R l1 /\ StronglySorted R l2 /\
  (forall x y, In x l1 -> In y l2 -> R x y).
Proof.
  induction l1 as [|a l1 IH]; simpl; intros H.
  - split; [constructor|]. split; [exact H | intros x y []].
  - apply StronglySorted_inv in H as [H Ha].
    destruct (IH H) as (H1 & H2 & Hcross).
    apply List.Forall_app in Ha as [Ha1 Ha2].
    split; [constructor; assumption|]. split; [exact H2|].
    intros x y [<- | Hx] Hy.
    + rewrite List.Forall_forall in Ha2. now apply Ha2.
    + now apply Hcross.
Qed.

Lemma StronglySorted_rev {A} (R : A -> A -> Prop) (l : list A) :
  StronglySorted R l -> StronglySorted (fun x y => R y x) (rev l).
Proof.
  induction 1 as [|a l Hl IH Ha]; simpl; [constructor|].
  apply StronglySorted_app; [exact IH | repeat constructor|].
  intros x y Hx [<- | []]. apply in_rev in Hx.
  rewrite List.Forall_forall in Ha. now apply Ha.
Qed.

Lemma StronglySorted_strict (l : list string) :
  StronglySorted (fun a b => String.leb a b = true) l -> List.NoDup l ->
  StronglySorted (fun a b => String.ltb a b = true) l.
Proof.
  induction 1 as [|a l Hl IH Ha]; intros Hnd; [constructor|].
  apply List.NoDup_cons_iff in Hnd as [Hnotin Hnd].
  constructor; [now apply IH|].
  rewrite List.Forall_forall in *. intros b Hb.
  apply string_leb_neq_ltb; [now apply Ha | congruence].
Qed.
End OrderFacts.

(** ** Archive names and the listing of log files *)

Section FileNameFacts.
Import JsString Logging.

Lemma dropString_app (p post : string) :
  dropString (String.length p) (p +:+ post) = post.
Proof. induction p as [|c p IH]; simpl; [reflexivity | exact IH]. Qed.

(** [replace] rewrites an occurrence, if there is one. *)
Lemma replace_occurrence (s pat rep : string) :
  includes s pat = true ->
  exists pre post, s = pre +:+ pat +:+ post /\ replace s pat rep = pre +:+ rep +:+ post.
Proof.
  induction s as [|c s IH]; cbn [includes replace].
  - rewrite orb_false_r. intros Hp. rewrite Hp.
    apply prefix_iff in Hp as [post ->]. exists ""%string, post.
    now rewrite dropString_app.
  - destruct (String.prefix pat (String c s)) eqn:Hp.
    + intros _. apply prefix_iff in Hp as [post ->]. exists ""%string, post.
      now rewrite dropString_app.
    + simpl. intros Hs. destruct (IH Hs) as (pre & post & -> & Hrep).
      exists (String c pre), post. simpl. now rewrite Hrep.
Qed.

Lemma revString_app (a b : string) :
  revString (a +:+ b) = revString b +:+ revString a.
Proof.
  induction a as [|c a IH]; simpl.
  - now rewrite append_nil_r.
  - now rewrite IH, append_assoc.
Qed.

Lemma revString_involutive (s : string) : revString (revString s) = s.
Proof.
  induction s as [|c s IH]; simpl; [reflexivity|].
  now rewrite revString_app, IH.
Qed.

Lemma endsWith_includes (s p : string) :
  endsWith s p = true -> includes s p = true.
Proof.
  unfold endsWith. intros H. apply prefix_iff in H as [post H].
  apply (f_equal revString) in H.
  rewrite revString_involutive, revString_app, revString_involutive in H.
  apply includes_iff. exists (revString post), ""%string.
  now rewrite append_nil_r.
Qed.

Lemma isLogFile_includes (file : string) :
  isLogFile file = true -> includes file ".log" = true.
Proof.
  unfold isLogFile. intros H. apply andb_true_iff in H as [_ H].
  now apply endsWith_includes.
Qed.

(** An archive name sorts before the name it comes from. *)
Lemma archiveName_lt (file iso : string) :
  isLogFile file = true -> String.ltb (archiveName file iso) file = true.
Proof.
  intros H. apply isLogFile_includes in H.
  unfold archiveName, String.ltb.
  destruct (replace_occurrence file ".log" ("-" +:+ dashColonsAndDots iso +:+ ".log") H)
    as (pre & post & Hfile & ->).
  rewrite Hfile. now rewrite string_compare_app.
Qed.

Lemma archiveName_embeds (file iso : string) :
  isLogFile file = true ->
  occursIn (dashColonsAndDots iso) (archiveName file iso).
Proof.
  intros H. apply isLogFile_includes in H.
  unfold archiveName.
  destruct (replace_occurrence file ".log" ("-" +:+ dashColonsAndDots iso +:+ ".log") H)
    as (pre & post & _ & ->).
  exists (pre +:+ "-"), (".log" +:+ post).
  now rewrite !append_assoc.
Qed.

Lemma logFilesOf_Permutation (files : list string) :
  Permutation (logFilesOf files) (List.filter isLogFile files).
Proof.
  unfold logFilesOf. symmetry.
  etransitivity; [apply StringSort.Permuted_sort | apply Permutation_rev].
Qed.

Lemma logFilesOf_In (files : list string) (file : string) :
  In file (logFilesOf files) <-> In file files /\ isLogFile file = true.
Proof.
  rewrite <- filter_In. split; apply Permutation_in;
    [|symmetry]; apply logFilesOf_Permutation.
Qed.

Lemma logFilesOf_NoDup (files : list string) :
  List.NoDup files -> List.NoDup (logFilesOf files).
Proof.
  intros H. eapply Permutation_NoDup; [symmetry; apply logFilesOf_Permutation|].
  now apply List.NoDup_filter.
Qed.

(** The listing is strictly descending. *)
Lemma logFilesOf_descending (files : list string) :
  List.NoDup files ->
  StronglySorted (fun a b => String.ltb b a = true) (logFilesOf files).
Proof.
  intros Hnd. unfold logFilesOf.
  apply (StronglySorted_rev (fun a b => String.ltb a b = true)).
  apply StronglySorted_strict.
  - apply StringSort.StronglySorted_sort.
    intros a b c. apply string_leb_trans.
  - eapply Permutation_NoDup; [apply StringSort.Permuted_sort|].
    now apply List.NoDup_filter.
Qed.
End FileNameFacts.

(** ** Rotation *)

Section RotationFacts.
Import JsString Logging.

Lemma lookup_deleteAll_notin (files : list string) (d : gmap string File) (g : string) :
  ~ In g files -> deleteAll files d !! g = d !! g.
Proof.
  revert d. induction files as [|f files IH]; intros d Hnotin; simpl; [reflexivity|].
  rewrite IH by (intros Hin; apply Hnotin; now right).
  apply lookup_delete_ne. intros ->. apply Hnotin. now left.
Qed.

Lemma lookup_deleteAll_in (files : list string) (d : gmap string File) (g : string) :
  In g files -> deleteAll files d !! g = None.
Proof.
  revert d. induction files as [|f files IH]; intros d Hin; simpl; [destruct Hin|].
  destruct (in_dec string_dec g files) as [Hin' | Hnotin].
  - now apply IH.
  - destruct Hin as [-> | Hin]; [|contradiction].
    fold (deleteAll files (delete g d)).
    rewrite lookup_deleteAll_notin by exact Hnotin. apply lookup_delete_eq.
Qed.

Lemma unlinkAll_run (files : list string) (d : gmap string File) (j : list FsEvent) :
  List.NoDup files ->
  (forall f, In f files -> is_Some (d !! f)) ->
  unlinkAll files (mkWorld (Present d) j)
  = (Normal tt, mkWorld (Present (deleteAll files d)) (j ++ map Unlinked files)).
Proof.
  revert d j. induction files as [|f files IH]; intros d j Hnd Hin; simpl.
  - now rewrite app_nil_r.
  - apply List.NoDup_cons_iff in Hnd as [Hnotin Hnd].
    destruct (Hin f (or_introl eq_refl)) as [x Hx].
    unfold bind at 1, catch, unlink, bind, getDir, setDir, emit. simpl. rewrite Hx. simpl.
    rewrite IH; [now rewrite <- app_assoc | exact Hnd |].
    intros g Hg. rewrite lookup_delete_ne by congruence. apply Hin. now right.
Qed.

Lemma Forall2_slot_origin {A B} (P : A -> B -> Prop) (l : list A) (k : list B) (b : B) :
  List.Forall2 P l k -> In b k -> exists a, In a l /\ P a b.
Proof.
  induction 1 as [|a b' l k Hab _ IH]; intros Hin; [destruct Hin|].
  destruct Hin as [<- | Hin].
  - exists a. split; [now left | exact Hab].
  - destruct (IH Hin) as (a' & Ha' & HP). exists a'. split; [now right | exact HP].
Qed.

(** The second loop: every file it meets is there, so it runs to its
    end; each file keeps its name or moves to its archive name; the names
    it vacates stay free. *)
Lemma archiveOversized_run (clock : nat -> string) (files : list string) :
  forall (i : nat) (d : gmap string File) (j : list FsEvent),
    StronglySorted (fun a b => String.ltb b a = true) files ->
    (forall f, In f files -> isLogFile f = true /\ is_Some (d !! f)) ->
    exists d' evs slots,
      archiveOversized clock i files (mkWorld (Present d) j)
      = (Normal tt, mkWorld (Present d') (j ++ evs)) /\
      unlinkedOf evs = [] /\
      List.Forall2 (fun f s => s = f \/ exists k, s = archiveName f (clock k)) files slots /\
      (forall g, is_Some (d' !! g) ->
                 (is_Some (d !! g) /\ ~ In g files) \/ In g slots) /\
      (forall f x, In f files -> d !! f = Some x -> maxLogSize < size x ->
                   d' !! f = None /\
                   exists k, In (f, archiveName f (clock k)) (renamedOf evs)).
Proof.
  induction files as [|f rest IH]; intros i d j Hsorted Hfiles.
  - exists d, [], []. simpl. rewrite app_nil_r.
    split; [reflexivity|]. split; [reflexivity|]. split; [constructor|].
    split; [intros g Hg; left; split; [exact Hg | intros []] | intros f x []].
  - apply StronglySorted_inv in Hsorted as [Hsorted Hbelow].
    rewrite List.Forall_forall in Hbelow.
    destruct (Hfiles f (or_introl eq_refl)) as [Hlog [x Hx]].
    assert (Hne : forall g, In g rest -> g <> f).
    { intros g Hg ->. specialize (Hbelow f Hg).
      now rewrite string_ltb_irrefl in Hbelow. }
    assert (Harch : forall g k, In g rest -> archiveName g (clock k) <> f).
    { intros g k Hg Heq. specialize (Hbelow g Hg).
      destruct (Hfiles g (or_intror Hg)) as [Hglog _].
      pose proof (string_ltb_trans _ _ _ (archiveName_lt g (clock k) Hglog) Hbelow) as Hlt.
      rewrite Heq, string_ltb_irrefl in Hlt. discriminate. }
    assert (Hself : archiveName f (clock i) <> f).
    { intros Heq. pose proof (archiveName_lt f (clock i) Hlog) as Hlt.
      rewrite Heq, string_ltb_irrefl in Hlt. discriminate. }
    cbn [archiveOversized].
    unfold bind at 1, stat, bind, getDir. simpl. rewrite Hx. unfold ret at 1.
    destruct (Z.ltb_spec maxLogSize (size x)) as [Hbig | Hsmall].
    + (* the file is renamed *)
      set (a := archiveName f (clock i)) in *.
      unfold rename, bind, getDir, setDir, emit. simpl. rewrite Hx. simpl.
      set (d1 := <[a := x]> (delete f d)).
      destruct (IH (S i) d1 (j ++ [Renamed f a]) Hsorted) as
        (d' & evs & slots & Hrun & Hunl & Hslots & Hnames & Hmoved).
      { intros g Hg. destruct (Hfiles g (or_intror Hg)) as [Hglog Hgin].
        split; [exact Hglog|]. unfold d1.
        destruct (string_dec a g) as [-> | Hag].
        - rewrite lookup_insert_eq. eauto.
        - rewrite lookup_insert_ne by exact Hag.
          rewrite lookup_delete_ne by (intros Heq; apply (Hne g Hg); congruence).
          exact Hgin. }
      assert (Hgone : d1 !! f = None).
      { unfold d1. rewrite lookup_insert_ne by exact Hself. apply lookup_delete_eq. }
      exists d', (Renamed f a :: evs), (a :: slots).
      split; [rewrite Hrun, <- app_assoc; reflexivity|].
      split; [exact Hunl|].
      split; [constructor; [right; exists i; reflexivity | exact Hslots]|].
      split.
      * intros g Hg. destruct (Hnames g Hg) as [[Hg1 Hnotin] | Hin]; [|right; now right].
        destruct (string_dec a g) as [-> | Hag]; [right; now left|].
        left. unfold d1 in Hg1. rewrite lookup_insert_ne in Hg1 by exact Hag.
        destruct (string_dec f g) as [-> | Hfg].
        -- rewrite lookup_delete_eq in Hg1. destruct Hg1 as [? [=]].
        -- rewrite lookup_delete_ne in Hg1 by exact Hfg.
           split; [exact Hg1 | intros [Heq | Hin]; [congruence | contradiction]].
      * intros g y [<- | Hg] Hy Hsize.
        -- split; [|exists i; now left].
           destruct (d' !! f) as [z|] eqn:Hz; [|reflexivity]. exfalso.
           destruct (Hnames f (ex_intro _ z Hz)) as [[[? Hg1] _] | Hin]; [congruence|].
           destruct (Forall2_slot_origin _ _ _ _ Hslots Hin) as (g & Hg & [Heq | [k Heq]]).
           ++ apply (Hne g Hg). congruence.
           ++ apply (Harch g k Hg). congruence.
        -- assert (Hy1 : exists y', d1 !! g = Some y' /\ maxLogSize < size y').
           { unfold d1. destruct (string_dec a g) as [-> | Hag].
             - rewrite lookup_insert_eq. eauto.
             - rewrite lookup_insert_ne by exact Hag.
               rewrite lookup_delete_ne by (intros Heq; apply (Hne g Hg); congruence).
               eauto. }
           destruct Hy1 as (y' & Hy' & Hsize').
           destruct (Hmoved g y' Hg Hy' Hsize') as [Hnone [k Hk]].
           split; [exact Hnone | exists k; now right].
    + (* the file stays *)
      unfold ret at 1.
      destruct (IH (S i) d j Hsorted) as
        (d' & evs & slots & Hrun & Hunl & Hslots & Hnames & Hmoved).
      { intros g Hg. apply Hfiles. now right. }
      exists d', evs, (f :: slots).
      split; [exact Hrun|]. split; [exact Hunl|].
      split; [constructor; [now left | exact Hslots]|].
      split.
      * intros g Hg. destruct (Hnames g Hg) as [[Hg1 Hnotin] | Hin]; [|right; now right].
        destruct (string_dec f g) as [-> | Hfg]; [right; now left|].
        left. split; [exact Hg1 | intros [Heq | Hin]; [congruence | contradiction]].
      * intros g y [<- | Hg] Hy Hsize.
        -- rewrite Hx in Hy. injection Hy as <-. lia.
        -- now apply (Hmoved g y).
Qed.

Lemma readdir_In (d : gmap string File) (file : string) :
  In file (map fst (map_to_list d)) <-> is_Some (d !! file).
Proof.
  rewrite in_map_iff. split.
  - intros ([g x] & <- & Hin). apply list_elem_of_In, elem_of_map_to_list in Hin.
    simpl. eauto.
  - intros [x Hx]. exists (file, x). split; [reflexivity|].
    now apply list_elem_of_In, elem_of_map_to_list.
Qed.

Lemma readdir_NoDup (d : gmap string File) : List.NoDup (map fst (map_to_list d)).
Proof. apply NoDup_ListNoDup, NoDup_fst_map_to_list. Qed.

Lemma unlinkedOf_app (evs evs' : list FsEvent) :
  unlinkedOf (evs ++ evs') = unlinkedOf evs ++ unlinkedOf evs'.
Proof. apply flat_map_app. Qed.

Lemma renamedOf_app (evs evs' : list FsEvent) :
  renamedOf (evs ++ evs') = renamedOf evs ++ renamedOf evs'.
Proof. apply flat_map_app. Qed.

Lemma unlinkedOf_Unlinked (files : list string) :
  unlinkedOf (map Unlinked files) = files.
Proof. induction files as [|f files IH]; simpl; [reflexivity | now rewrite IH]. Qed.
End RotationFacts.

Section RotationClaims.
Import JsString Logging.

End RotationClaims.

(** ** Reading the logs back *)

Section RecentLogsFacts.
Import JsString Logging.
Context {ErrorLog : Type}.
Variable parseLine : string -> option ErrorLog.

Lemma firstn_firstn_app {A} (n : nat) (l k : list A) :
  firstn n (firstn n l ++ k) = firstn n (l ++ k).
Proof.
  revert l. induction n as [|n IH]; intros [|a l]; simpl; try reflexivity.
  now rewrite IH.
Qed.

Lemma firstn_full_app {A} (n : nat) (l k : list A) :
  length l = n -> firstn n (l ++ k) = l.
Proof.
  intros <-. rewrite firstn_app, Nat.sub_diag, firstn_all. simpl. apply app_nil_r.
Qed.

(** The inner loop gathers the records of the lines, up to the limit. *)
Lemma collectLines_firstn (limit : nat) (lines : list string) (logs : list ErrorLog) :
  (length logs <= limit)%nat ->
  collectLines parseLine limit lines logs
  = firstn limit (logs ++ flat_map (recordsOfLine parseLine) lines).
Proof.
  revert logs. induction lines as [|line rest IH]; intros logs Hlen; simpl.
  - rewrite app_nil_r. symmetry. now apply firstn_all2.
  - destruct (Nat.leb_spec limit (length logs)) as [Hfull | Hroom].
    + symmetry. apply firstn_full_app. lia.
    + unfold recordsOfLine at 1.
      destruct (String.eqb (trim line) ""); [now apply IH|].
      destruct (parseLine line) as [log|]; [|now apply IH].
      rewrite IH by (rewrite length_app; simpl; lia).
      now rewrite <- app_assoc.
Qed.

(** The outer loop does the same over the files of a directory. *)
Lemma collectFiles_firstn (limit : nat) (d : gmap string File) (j : list FsEvent)
    (files : list string) (logs : list ErrorLog) :
  (length logs <= limit)%nat ->
  collectFiles parseLine limit files logs (mkWorld (Present d) j)
  = (Normal (firstn limit (logs ++ flat_map (recordsOfFile parseLine d) files)),
     mkWorld (Present d) j).
Proof.
  revert logs. induction files as [|file rest IH]; intros logs Hlen; simpl.
  - rewrite app_nil_r, firstn_all2 by exact Hlen. reflexivity.
  - destruct (Nat.leb_spec limit (length logs)) as [Hfull | Hroom].
    + rewrite firstn_full_app by lia. reflexivity.
    + unfold bind at 1, catch, readFile, bind, stat, bind, getDir.
      cbn -[collectFiles collectLines recordsOfFile flat_map].
      assert (Hrec : recordsOfFile parseLine d file =
                     match d !! file with
                     | Some {| content := Some text |} => recordsOfText parseLine text
                     | _ => []
                     end) by reflexivity.
      rewrite Hrec. clear Hrec.
      destruct (d !! file) as [[sz [text|]]|]; cbn -[collectFiles collectLines flat_map].
      * rewrite collectLines_firstn by lia.
        rewrite IH by apply firstn_le_length.
        fold (recordsOfText parseLine text).
        now rewrite firstn_firstn_app, <- app_assoc.
      * now rewrite IH by lia.
      * now rewrite IH by lia.
Qed.

Lemma getRecentLogs_server (limit : nat) (w : World) :
  exists w',
    getRecentLogs parseLine ServerErrorLoggerModule limit w
    = (Normal (firstn limit (recordsNewestFirst parseLine (dirOf w))), w').
Proof.
  destruct w as [[d| |] j];
    unfold getRecentLogs, catch, bind, resolve, mkdir, readdir, bind, getDir, ret, dirOf;
    cbn -[collectFiles logFilesOf].
  - rewrite collectFiles_firstn by (simpl; lia). eexists. reflexivity.
  - rewrite collectFiles_firstn by (simpl; lia).
    unfold recordsNewestFirst. rewrite map_to_list_empty.
    eexists. reflexivity.
  - unfold recordsNewestFirst. rewrite map_to_list_empty.
    eexists. rewrite firstn_nil. reflexivity.
Qed.

(** In lib/error-logger nothing binds [mkdir]: the first statement of the
    body throws, and the outer [catch] returns the empty list. *)
Lemma getRecentLogs_client (limit : nat) (w : World) :
  getRecentLogs parseLine ErrorLoggerModule limit w
  = (Normal [], mkWorld (logDir w) (journal w ++ [ConsoleError "Failed to get recent logs:"])).
Proof. reflexivity. Qed.
End RecentLogsFacts.

Section RecentLogsClaims.
Import JsString Logging.

End RecentLogsClaims.

(** ** The theorems at work on concrete inputs *)

Section Instances.
Import JsString ErrorHandling Monitoring Logging.

(** C1 on the [api] preset: two attempts, the second error is thrown. *)
Lemma withRetry_exhausts_attempts_api :
  exists e trace,
    withRetry networkDown RETRY_CONFIGS_api = Some (Throw (Some e), trace) /\
    invocations trace = [0; 1]%nat /\
    length (invocations trace) = 2%nat /\
    networkDown 1%nat = Throw e.
Proof.
  apply (withRetry_exhausts_attempts networkDown RETRY_CONFIGS_api).
  - simpl. lia.
  - intros i. eexists. split; reflexivity.
Defined.

(** C5 on the [github] preset: a refused request is not retried. *)
Lemma withRetry_non_retryable_once_github :
  exists trace,
    withRetry badRequest RETRY_CONFIGS_github
    = Some (Throw (Some (mkError "400 Bad Request" (Some "EBADREQ"%string) (Some 400))), trace) /\
    invocations trace = [0%nat] /\
    sleeps trace = [].
Proof.
  apply (withRetry_non_retryable_once badRequest RETRY_CONFIGS_github).
  - simpl. lia.
  - reflexivity.
  - reflexivity.
Defined.

(** C2 on two orders of the same three checks. *)
Lemma runHealthChecks_overall_reordered :
  overall (runHealthChecks (Normal (map checkWith [degraded; healthy; healthy])) 0 0 "1.0.0" "test")
  = overall (runHealthChecks (Normal (map checkWith [healthy; degraded; healthy])) 0 0 "1.0.0" "test").
Proof.
  refine (proj1 (proj2 (proj2 (proj2 (proj2
    (runHealthChecks_overall (map checkWith [healthy; degraded; healthy])
                             (map checkWith [degraded; healthy; healthy])
                             0 0 "1.0.0" "test" _)))))).
  simpl. apply perm_swap.
Defined.


(** C9 on a monitor with one recorded check. *)
Lemma getStats_of_recorded_checks_day_old :
  recentChecks (getStats dayOldMonitor dayOldNow) = 1%nat /\
  successfulChecks (getStats dayOldMonitor dayOldNow) = 1%nat.
Proof.
  destruct (getStats_of_recorded_checks dayOldMonitor dayOldNow) as (Hrecent & Hok & _).
  - vm_compute. discriminate.
  - split; [exact Hrecent | exact Hok].
Defined.
End Instances.


(** * Further properties of the code *)

(** ** The console logger *)

Section AppLoggerFacts.
Import JsString AppLogger.

Ltac recognised current level :=
  destruct level; simpl;
  (split;
   [ intros H; first [discriminate H | exists current; simpl; split; [reflexivity | lia]]
   | intros ([] & Heq & Hle); simpl in *; first [discriminate | lia | reflexivity] ]).

Lemma shouldLog_iff (logLevel : string) (level : LogLevel) :
  shouldLog logLevel level = true <->
  exists current, logLevel = levelValue current /\ rank level <= rank current.
Proof.
  unfold shouldLog, indexOf. cbn [map indexOfFrom levelValue].
  destruct (String.eqb_spec "error" logLevel) as [<- | Herror]; [recognised ERROR level|].
  destruct (String.eqb_spec "warn" logLevel) as [<- | Hwarn]; [recognised WARN level|].
  destruct (String.eqb_spec "info" logLevel) as [<- | Hinfo]; [recognised INFO level|].
  destruct (String.eqb_spec "debug" logLevel) as [<- | Hdebug]; [recognised DEBUG level|].
  split.
  - destruct level; simpl; discriminate.
  - intros ([] & Heq & _); simpl in Heq; congruence.
Qed.

(** X1.  An entry reaches some sink exactly when the logger's [logLevel]
    is one of [error], [warn], [info], [debug] and the entry is at least
    that severe;
    with any other value (an upper-case [ERROR], say) nothing is written,
    errors included.  An entry reaches the file logger exactly when,
    moreover, the process is not in development and the entry is an error. *)
Theorem log_sinks (isDevelopment : bool) (logLevel : string) (level : LogLevel) :
  (log isDevelopment logLevel level <> [] <->
   exists current, logLevel = levelValue current /\ rank level <= rank current) /\
  (In ToFileLogger (log isDevelopment logLevel level) <->
   isDevelopment = false /\ level = ERROR /\ exists current, logLevel = levelValue current) /\
  (forall other, (forall current, other <> levelValue current) ->
                 log isDevelopment other level = []).
Proof.
  pose proof (shouldLog_iff logLevel level) as Hshould.
  unfold log. split; [|split].
  - destruct (shouldLog logLevel level); simpl.
    + split; [intros _; now apply Hshould|]. intros _. destruct isDevelopment; discriminate.
    + split; [congruence|]. intros H. apply Hshould in H. discriminate.
  - destruct (shouldLog logLevel level); simpl.
    + assert (Hcur : exists current, logLevel = levelValue current)
        by (destruct Hshould as [H _]; destruct (H eq_refl) as (c & Hc & _); eauto).
      destruct isDevelopment, level; simpl; intuition (try discriminate; eauto).
    + split; [intros [] | intros (_ & -> & c & ->)].
      assert (Hfalse : false = true) by (apply Hshould; exists c; split; [reflexivity | destruct c; simpl; lia]).
      discriminate.
  - intros other Hother. destruct (shouldLog other level) eqn:Hs; [|reflexivity].
    apply shouldLog_iff in Hs as (c & -> & _). now destruct (Hother c).
Qed.
End AppLoggerFacts.

(** ** The uptime ring *)

Section UptimeRingFacts.
Import JsString Monitoring Probes.

Lemma sliceLast_all {A} (n : nat) (l : list A) :
  (length l <= n)%nat -> sliceLast n l = l.
Proof. intros H. unfold sliceLast. now replace (length l - n)%nat with 0%nat by lia. Qed.

Lemma recordCheck_ring (m : UptimeMonitor) (now : Z) (isHealthy : bool) :
  ring (recordCheck m now isHealthy) = sliceLast maxChecks (ring m ++ [(now, isHealthy)]).
Proof.
  unfold recordCheck. cbn [ring].
  destruct (Nat.ltb_spec maxChecks (length (ring m ++ [(now, isHealthy)]))); [reflexivity|].
  symmetry. now apply sliceLast_all.
Qed.

Lemma sliceLast_app_sliceLast {A} (n : nat) (l k : list A) :
  sliceLast n (sliceLast n l ++ k) = sliceLast n (l ++ k).
Proof.
  rewrite !sliceLast_mostRecent. unfold mostRecent. f_equal.
  rewrite !rev_app_distr, rev_involutive, !firstn_app, firstn_firstn.
  f_equal. f_equal. lia.
Qed.

Lemma recordChecks_ring (m : UptimeMonitor) (checks : list (Z * bool)) :
  (length (ring m) <= maxChecks)%nat ->
  ring (recordChecks m checks) = sliceLast maxChecks (ring m ++ checks) /\
  startTime (recordChecks m checks) = startTime m.
Proof.
  unfold recordChecks.
  revert m. induction checks as [|[now b] checks IH]; intros m Hlen; simpl.
  - rewrite app_nil_r. split; [symmetry; now apply sliceLast_all | reflexivity].
  - destruct (IH (recordCheck m now b)) as [Hring Hstart].
    + rewrite recordCheck_ring, length_sliceLast. lia.
    + split; [|exact Hstart].
      rewrite Hring, recordCheck_ring.
      now rewrite sliceLast_app_sliceLast, <- app_assoc.
Qed.

(** X2.  After any number of [recordCheck] calls on a new monitor the
    ring holds the last 100 outcomes recorded (all of them when fewer), in
    the order recorded, so [totalChecks] is the number of calls capped at
    100 and [recentChecks] that number capped at 20. *)
Theorem recordCheck_keeps_last_hundred (start now : Z) (checks : list (Z * bool)) :
  let monitor := recordChecks (newUptimeMonitor start) checks in
  ring monitor = mostRecent 100 checks /\
  totalChecks (getStats monitor now) = Nat.min 100 (length checks) /\
  recentChecks (getStats monitor now) = Nat.min 20 (length checks) /\
  successfulChecks (getStats monitor now) = countTrue (mostRecent 20 checks).
Proof.
  intros monitor.
  destruct (recordChecks_ring (newUptimeMonitor start) checks) as [Hring _];
    [simpl; unfold maxChecks; lia|].
  fold monitor in Hring. simpl in Hring. unfold maxChecks in Hring.
  assert (Hrecent : sliceLast 20 (ring monitor) = mostRecent 20 checks).
  { rewrite Hring, !sliceLast_mostRecent. unfold mostRecent. f_equal.
    rewrite rev_involutive, firstn_firstn. reflexivity. }
  split; [now rewrite Hring, sliceLast_mostRecent|].
  unfold getStats. cbn [totalChecks recentChecks successfulChecks].
  rewrite Hrecent. fold (countTrue (mostRecent 20 checks)).
  split; [rewrite Hring; apply length_sliceLast|].
  split; [|reflexivity].
  rewrite <- sliceLast_mostRecent. apply length_sliceLast.
Qed.

Lemma countTrue_le (l : list (Z * bool)) : (countTrue l <= length l)%nat.
Proof. unfold countTrue. apply List.filter_length_le. Qed.

(** X3.  Whatever the monitor holds, [getStats] reports an availability
    between 0 and 100, no more successful checks than recent checks, and
    no more recent checks than 20 or than the checks held. *)
Theorem getStats_bounds (m : UptimeMonitor) (now : Z) :
  (0 <= availability (getStats m now) <= 100)%Q /\
  (successfulChecks (getStats m now) <= recentChecks (getStats m now))%nat /\
  (recentChecks (getStats m now) <= 20)%nat /\
  (recentChecks (getStats m now) <= totalChecks (getStats m now))%nat.
Proof.
  unfold getStats. cbn [availability successfulChecks recentChecks totalChecks].
  set (recent := sliceLast 20 (ring m)).
  pose proof (countTrue_le recent) as Hle. unfold countTrue in Hle.
  set (s := length (List.filter (fun check => snd check) recent)) in *.
  assert (Hlen : length recent = Nat.min 20 (length (ring m))) by apply length_sliceLast.
  split; [|split; [exact Hle | split; lia]].
  assert (Hround : forall x : Q, (0 <= x <= 100)%Q ->
            (0 <= inject_Z (MathRound (x * 100)) / 100 <= 100)%Q).
  { intros x [H0 H100]. unfold MathRound.
    assert (Hlo : 0 <= Qfloor (x * 100 + (1 # 2))).
    { change 0 with (Qfloor 0). apply Qfloor_resp_le. lra. }
    assert (Hhi : Qfloor (x * 100 + (1 # 2)) <= 10000).
    { change 10000 with (Qfloor (10000 + (1 # 2))). apply Qfloor_resp_le. lra. }
    rewrite Zle_Qle in Hlo, Hhi.
    set (f := inject_Z (Qfloor _)) in *. clearbody f.
    change (inject_Z 0) with 0%Q in Hlo. change (inject_Z 10000) with 10000%Q in Hhi.
    unfold Qdiv. change (/ 100)%Q with (1 # 100)%Q. split; lra. }
  apply Hround.
  destruct (Nat.ltb_spec 0 (length recent)) as [Hpos | _]; [|split; lra].
  assert (Hs : (0 <= natQ s)%Q) by (unfold natQ; rewrite <- (Zle_Qle 0); lia).
  assert (Hr : (0 < natQ (length recent))%Q) by (unfold natQ; rewrite <- (Zlt_Qlt 0); lia).
  assert (Hsr : (natQ s <= natQ (length recent))%Q) by (unfold natQ; rewrite <- Zle_Qle; lia).
  assert (Hq : (0 <= natQ s / natQ (length recent) <= 1)%Q).
  { split.
    - apply Qle_shift_div_l; [exact Hr | lra].
    - apply Qle_shift_div_r; [exact Hr | lra]. }
  split; lra.
Qed.
End UptimeRingFacts.

(** ** The probes and the scheduled run *)

Section ProbeFacts.
Import JsString Monitoring Probes.

Lemma filter_nonempty_existsb {A} (f : A -> bool) (l : list A) :
  (0 <? length (List.filter f l))%nat = existsb f l.
Proof.
  induction l as [|x l IH]; simpl; [reflexivity|].
  destruct (f x); simpl; [reflexivity | exact IH].
Qed.

Lemma isSet_false_iff (e : gmap string string) (key : string) :
  isSet e key = false <-> e !! key = None \/ e !! key = Some ""%string.
Proof.
  unfold isSet. destruct (e !! key) as [v|]; [|intuition].
  destruct (String.eqb_spec v ""); simpl.
  - subst. intuition.
  - split; [discriminate | intros [H | H]; congruence].
Qed.

Lemma existsb_unset_iff (e : gmap string string) (keys : list string) :
  existsb (fun key => negb (isSet e key)) keys = true <->
  Exists (fun key => e !! key = None \/ e !! key = Some ""%string) keys.
Proof.
  rewrite existsb_exists, List.Exists_exists.
  split; intros (key & Hin & Hkey); exists key; (split; [exact Hin|]).
  - apply isSet_false_iff. now apply negb_true_iff.
  - apply negb_true_iff. now apply isSet_false_iff.
Qed.

Lemma checkEnvironment_status_cases (e : gmap string string) (t : Timing) :
  status (checkEnvironment e t) =
    if existsb (fun key => negb (isSet e key)) requiredEnvVars then unhealthy
    else if existsb (fun key => negb (isSet e key)) optionalEnvVars then degraded
    else healthy.
Proof.
  unfold checkEnvironment. rewrite !filter_nonempty_existsb.
  destruct (existsb _ requiredEnvVars); [reflexivity|].
  destruct (existsb _ optionalEnvVars); reflexivity.
Qed.

(** X4.  [checkEnvironment] is [unhealthy] exactly when one of the four
    required variables is unset or empty, [degraded] exactly when all
    required ones are set and one of the four optional ones is unset or
    empty, and [healthy] exactly when all eight are set and not empty: a
    variable set to the empty string counts as missing. *)
Theorem checkEnvironment_status (e : gmap string string) (t : Timing) :
  let unset := fun key => e !! key = None \/ e !! key = Some ""%string in
  (status (checkEnvironment e t) = unhealthy <-> Exists unset requiredEnvVars) /\
  (status (checkEnvironment e t) = degraded <->
     ~ Exists unset requiredEnvVars /\ Exists unset optionalEnvVars) /\
  (status (checkEnvironment e t) = healthy <->
     ~ Exists unset (requiredEnvVars ++ optionalEnvVars)).
Proof.
  intros unset. rewrite checkEnvironment_status_cases.
  rewrite List.Exists_app. unfold unset. rewrite <- !existsb_unset_iff.
  destruct (existsb _ requiredEnvVars); [|destruct (existsb _ optionalEnvVars)];
    intuition discriminate.
Qed.

Lemma checkGitHub_status (e : gmap string string)
    (connection : completion Thrown ConnectionResult) (t : Timing) :
  status (checkGitHub e connection t) = healthy <->
  exists result, connection = Normal result /\ success result = true.
Proof.
  unfold checkGitHub. destruct connection as [[ok err]|thrown]; simpl.
  - destruct ok; simpl; split.
    + intros _. eexists. split; reflexivity.
    + reflexivity.
    + discriminate.
    + intros (r & [= <-] & H). discriminate.
  - split; [discriminate | intros (r & [=] & _)].
Qed.

Lemma checkGitHub_not_degraded (e : gmap string string)
    (connection : completion Thrown ConnectionResult) (t : Timing) :
  status (checkGitHub e connection t) <> degraded.
Proof. unfold checkGitHub. destruct connection as [[[] err]|thrown]; discriminate. Qed.

Lemma checkEmailService_status (e : gmap string string)
    (service : completion Thrown unit) (t : Timing) :
  (status (checkEmailService e service t) = healthy <-> succeeds service) /\
  status (checkEmailService e service t) <> degraded.
Proof.
  unfold checkEmailService, succeeds. destruct service as [[]|thrown]; simpl.
  - split; [split; eauto | discriminate].
  - split; [split; [discriminate | intros [a [=]]] | discriminate].
Qed.

Lemma checkFileSystem_healthy_or_unhealthy (fs : FsProbe) (t0 t1 t2 : Z) :
  (status (checkFileSystem fs t0 t1 t2) = healthy <-> coreStepsSucceed fs) /\
  status (checkFileSystem fs t0 t1 t2) <> degraded.
Proof.
  pose proof (checkFileSystem_outcome fs t0 t1 t2) as H.
  destruct (firstFailure fs); destruct H as [Hcore ->]; simpl;
    (split; [split; [try discriminate; tauto | tauto] | discriminate]).
Qed.

Lemma probe_names (s : Surroundings) (t : Timing) :
  name (checkEnvironment (env s) t) = "Environment"%string /\
  name (checkFileSystem (fileSystem s) (startedAt t) (endedAt t) (checkedAt t))
    = "File System"%string /\
  name (checkGitHub (env s) (github s) t) = "GitHub API"%string /\
  name (checkEmailService (env s) (email s) t) = "Email Service"%string.
Proof.
  repeat split.
  - unfold checkEnvironment.
    destruct (0 <? _)%nat; [reflexivity|]. destruct (0 <? _)%nat; reflexivity.
  - unfold checkFileSystem, tryCatch, bindC.
    destruct (writeFile (fileSystem s)) as [[]|]; [|reflexivity].
    destruct (readFile (fileSystem s)) as [content|]; [|reflexivity].
    destruct (parseJSON (fileSystem s) content) as [[]|]; reflexivity.
  - unfold checkGitHub. destruct (github s); reflexivity.
  - unfold checkEmailService. destruct (email s); reflexivity.
Qed.

Lemma runAllHealthChecks_healthy_iff (s : Surroundings) (t : Timing) (up : Z) :
  (overall (runAllHealthChecks s t up) = healthy <->
     status (checkEnvironment (env s) t) = healthy /\
     coreStepsSucceed (fileSystem s) /\
     (exists result, github s = Normal result /\ success result = true) /\
     succeeds (email s)) /\
  (overall (runAllHealthChecks s t up) = degraded <->
     status (checkEnvironment (env s) t) = degraded /\
     coreStepsSucceed (fileSystem s) /\
     (exists result, github s = Normal result /\ success result = true) /\
     succeeds (email s)).
Proof.
  destruct (checkFileSystem_healthy_or_unhealthy (fileSystem s)
              (startedAt t) (endedAt t) (checkedAt t)) as [Hfs Hfs_d].
  pose proof (checkGitHub_status (env s) (github s) t) as Hgh.
  pose proof (checkGitHub_not_degraded (env s) (github s) t) as Hgh_d.
  destruct (checkEmailService_status (env s) (email s) t) as [Hem Hem_d].
  rewrite <- Hfs, <- Hgh, <- Hem.
  unfold runAllHealthChecks, runHealthChecks, tryCatch, bindC.
  cbn [overall]. unfold overallOf. cbn [existsb].
  destruct (status (checkEnvironment (env s) t));
    destruct (status (checkFileSystem (fileSystem s) (startedAt t) (endedAt t) (checkedAt t)));
    try (now destruct Hfs_d);
    destruct (status (checkGitHub (env s) (github s) t)); try (now destruct Hgh_d);
    destruct (status (checkEmailService (env s) (email s) t)); try (now destruct Hem_d);
    simpl; intuition discriminate.
Qed.

(** X5.  A run of the four probes always yields the four checks
    Environment, File System, GitHub API and Email Service, in this order.
    Its overall status is [healthy] exactly when all eight environment
    variables are set, the file-system probe writes, reads and parses, the
    GitHub connection test reports success and the email service is
    created; it is [degraded] exactly when only an optional environment
    variable is missing. *)
Theorem runAllHealthChecks_overall (s : Surroundings) (t : Timing) (up : Z) :
  let health := runAllHealthChecks s t up in
  let unset := fun key => env s !! key = None \/ env s !! key = Some ""%string in
  let othersPass :=
    coreStepsSucceed (fileSystem s) /\
    (exists result, github s = Normal result /\ success result = true) /\
    succeeds (email s) in
  map name (checks health) = ["Environment"; "File System"; "GitHub API"; "Email Service"]%string /\
  (overall health = healthy <->
     ~ Exists unset (requiredEnvVars ++ optionalEnvVars) /\ othersPass) /\
  (overall health = degraded <->
     ~ Exists unset requiredEnvVars /\ Exists unset optionalEnvVars /\ othersPass).
Proof.
  intros health unset othersPass.
  destruct (probe_names s t) as (N1 & N2 & N3 & N4).
  destruct (runAllHealthChecks_healthy_iff s t up) as [Hh Hd].
  split.
  { unfold health, runAllHealthChecks, runHealthChecks, tryCatch, bindC.
    cbn [checks map]. now rewrite N1, N2, N3, N4. }
  fold health in Hh, Hd. rewrite Hh, Hd.
  rewrite checkEnvironment_status_cases, List.Exists_app.
  unfold unset. rewrite <- !existsb_unset_iff.
  destruct (existsb _ requiredEnvVars); [|destruct (existsb _ optionalEnvVars)];
    unfold othersPass; intuition discriminate.
Qed.

Lemma scheduledRuns_recordChecks (runs : list (Surroundings * Timing)) (m : UptimeMonitor) :
  scheduledRuns runs m =
  recordChecks m
    (map (fun run => (checkedAt (snd run),
                      Status_eqb (overall (runAllHealthChecks (fst run) (snd run) 0)) healthy))
         runs).
Proof.
  unfold scheduledRuns, recordChecks. revert m.
  induction runs as [|run runs IH]; intros m; simpl; [reflexivity | apply IH].
Qed.

Lemma Forall_sliceLast {A} (P : A -> Prop) (n : nat) (l : list A) :
  Forall P l -> Forall P (sliceLast n l).
Proof.
  intros H. unfold sliceLast.
  rewrite <- (firstn_skipn (length l - n) l) in H. now apply List.Forall_app in H.
Qed.

Lemma countTrue_all_false (l : list (Z * bool)) :
  Forall (fun check => snd check = false) l -> countTrue l = 0%nat.
Proof.
  unfold countTrue. induction 1 as [|[ts b] l Hb _ IH]; simpl; [reflexivity|].
  simpl in Hb. now rewrite Hb.
Qed.

(** X6.  A scheduled run records [true] only when the overall status is
    [healthy], so a [degraded] run counts as a failed check: when every
    scheduled run finds some optional environment variable unset or empty,
    all the checks recorded are [false] and the availability reported is 0,
    whatever the other probes answer. *)
Theorem scheduledRuns_optional_unset (start now : Z) (runs : list (Surroundings * Timing)) :
  runs <> [] ->
  Forall (fun run =>
            Exists (fun key => env (fst run) !! key = None \/
                               env (fst run) !! key = Some ""%string)
                   optionalEnvVars) runs ->
  let monitor := scheduledRuns runs (newUptimeMonitor start) in
  ring monitor <> [] /\
  Forall (fun check => snd check = false) (ring monitor) /\
  (availability (getStats monitor now) == 0)%Q.
Proof.
  intros Hne Hruns monitor.
  set (outcomes :=
         map (fun run => (checkedAt (snd run),
                          Status_eqb (overall (runAllHealthChecks (fst run) (snd run) 0)) healthy))
             runs).
  assert (Hfalse : Forall (fun check => snd check = false) outcomes).
  { unfold outcomes. apply List.Forall_map. eapply List.Forall_impl; [|exact Hruns].
    intros [s t] Hunset. cbn [fst snd] in *.
    destruct (overall (runAllHealthChecks s t 0)) eqn:Hoverall; try reflexivity.
    exfalso. apply runAllHealthChecks_healthy_iff in Hoverall as [Henv _].
    rewrite checkEnvironment_status_cases in Henv.
    apply existsb_unset_iff in Hunset.
    destruct (existsb _ requiredEnvVars); [discriminate|].
    rewrite Hunset in Henv. discriminate. }
  destruct (recordChecks_ring (newUptimeMonitor start) outcomes) as [Hring _];
    [simpl; unfold maxChecks; lia|].
  assert (Hmonitor : ring monitor = sliceLast maxChecks outcomes).
  { unfold monitor. rewrite scheduledRuns_recordChecks. exact Hring. }
  assert (Hnonempty : ring monitor <> []).
  { intros Hnil. apply (f_equal (@length _)) in Hnil.
    rewrite Hmonitor, length_sliceLast in Hnil. unfold outcomes in Hnil.
    rewrite length_map in Hnil. unfold maxChecks in Hnil.
    destruct runs; [congruence | simpl in Hnil; lia]. }
  assert (Hall : Forall (fun check => snd check = false) (ring monitor))
    by (rewrite Hmonitor; now apply Forall_sliceLast).
  split; [exact Hnonempty|]. split; [exact Hall|].
  rewrite (getStats_availability monitor now Hnonempty).
  rewrite (countTrue_all_false _ (Forall_sliceLast _ 20 _ Hall)).
  unfold MathRound.
  assert (Hzero : (natQ 0 / natQ (length (sliceLast 20 (ring monitor))) * 100 * 100 + (1 # 2)
                   == 1 # 2)%Q).
  { unfold natQ at 1. change (inject_Z (Z.of_nat 0)) with 0%Q. unfold Qdiv.
    rewrite Qmult_0_l. reflexivity. }
  rewrite (Qfloor_comp _ _ Hzero). reflexivity.
Qed.
End ProbeFacts.

(** ** Request metrics *)

Section MetricsFacts.
Import Metrics.

Lemma fold_left_add_zsum (f : EndpointMetrics -> Z) (l : list EndpointMetrics) (a : Z) :
  fold_left (fun sum ep => sum + f ep) l a = a + zsum (map f l).
Proof.
  revert a. induction l as [|x l IH]; intros a; simpl; [lia|]. rewrite IH. lia.
Qed.

Lemma zsum_Permutation (l l' : list Z) : Permutation l l' -> zsum l = zsum l'.
Proof. induction 1; simpl; lia. Qed.

Lemma sumOver_zsum (f : EndpointMetrics -> Z) (eps : gmap string EndpointMetrics) :
  sumOver f eps = zsum (map (fun kv => f (snd kv)) (map_to_list eps)).
Proof. unfold sumOver. rewrite fold_left_add_zsum, map_map. lia. Qed.

Lemma sumOver_empty (f : EndpointMetrics -> Z) : sumOver f ∅ = 0.
Proof. rewrite sumOver_zsum, map_to_list_empty. reflexivity. Qed.

Lemma sumOver_insert_None (f : EndpointMetrics -> Z) (eps : gmap string EndpointMetrics)
    (k : string) (x : EndpointMetrics) :
  eps !! k = None -> sumOver f (<[k := x]> eps) = f x + sumOver f eps.
Proof.
  intros Hk. rewrite !sumOver_zsum.
  rewrite (zsum_Permutation _ (map (fun kv => f (snd kv)) ((k, x) :: map_to_list eps))).
  - reflexivity.
  - apply Permutation_map. now apply map_to_list_insert.
Qed.

Lemma sumOver_insert (f : EndpointMetrics -> Z) (eps : gmap string EndpointMetrics)
    (k : string) (x : EndpointMetrics) :
  sumOver f (<[k := x]> eps) =
  sumOver f eps - match eps !! k with Some y => f y | None => 0 end + f x.
Proof.
  destruct (eps !! k) as [y|] eqn:Hk.
  - rewrite <- (insert_delete_eq eps k x).
    rewrite sumOver_insert_None by apply lookup_delete_eq.
    rewrite <- (insert_id eps k y Hk) at 2.
    rewrite <- (insert_delete_eq eps k y).
    rewrite (sumOver_insert_None f (delete k eps) k y) by apply lookup_delete_eq. lia.
  - rewrite sumOver_insert_None by exact Hk. lia.
Qed.

Lemma recordRequest_sums (m : PerformanceMetrics) (e : string) (rt : Z) (b : bool) :
  let m' := recordRequest m e rt b in
  requestCount m' = requestCount m + 1 /\
  sumOver count (endpoints m') = sumOver count (endpoints m) + 1 /\
  sumOver totalTime (endpoints m') = sumOver totalTime (endpoints m) + rt /\
  sumOver errors (endpoints m') = sumOver errors (endpoints m) + (if b then 1 else 0).
Proof.
  unfold recordRequest. cbn [requestCount endpoints].
  rewrite !sumOver_insert. cbn [count totalTime errors].
  destruct (endpoints m !! e) as [ep|]; destruct b; cbn [count totalTime errors];
    repeat split; lia.
Qed.

Lemma recordRequests_sums (reqs : list Request) (m : PerformanceMetrics) :
  let m' := recordRequests m reqs in
  requestCount m' = requestCount m + Z.of_nat (length reqs) /\
  sumOver count (endpoints m') = sumOver count (endpoints m) + Z.of_nat (length reqs) /\
  sumOver totalTime (endpoints m') = sumOver totalTime (endpoints m) + totalOf reqTime reqs /\
  sumOver errors (endpoints m') = sumOver errors (endpoints m) + errorsIn reqs.
Proof.
  unfold recordRequests, errorsIn. revert m.
  induction reqs as [|r reqs IH]; intros m; cbn [fold_left length totalOf fold_right].
  - repeat split; lia.
  - destruct (IH (recordRequest m (reqEndpoint r) (reqTime r) (reqIsError r)))
      as (H1 & H2 & H3 & H4).
    destruct (recordRequest_sums m (reqEndpoint r) (reqTime r) (reqIsError r))
      as (G1 & G2 & G3 & G4).
    cbv zeta in *. rewrite H1, H2, H3, H4, G1, G2, G3, G4.
    unfold totalOf. repeat split; lia.
Qed.

Lemma recordRequests_lookup (reqs : list Request) (m : PerformanceMetrics) (e : string) :
  endpoints (recordRequests m reqs) !! e = tally (endpoints m !! e) (requestsTo e reqs).
Proof.
  unfold recordRequests. revert m.
  induction reqs as [|r reqs IH]; intros m; cbn [fold_left requestsTo List.filter].
  - reflexivity.
  - rewrite IH. unfold recordRequest at 1. cbn [endpoints].
    destruct (String.eqb_spec (reqEndpoint r) e) as [-> | Hne].
    + rewrite lookup_insert_eq. fold (requestsTo e reqs).
      unfold tally, errorsIn.
      destruct (endpoints m !! e) as [ep|]; destruct (requestsTo e reqs) as [|r' rs];
        cbn [count totalTime errors length totalOf fold_right];
        f_equal; destruct (reqIsError r); f_equal; lia.
    + rewrite lookup_insert_ne by exact Hne. reflexivity.
Qed.

Lemma recordRequests_lastReset (reqs : list Request) (m : PerformanceMetrics) :
  lastReset (recordRequests m reqs) = lastReset m.
Proof.
  unfold recordRequests. revert m.
  induction reqs as [|r rs IH]; intros m; simpl; [reflexivity | rewrite IH; reflexivity].
Qed.


Lemma errorsIn_bounds (reqs : list Request) : 0 <= errorsIn reqs <= Z.of_nat (length reqs).
Proof.
  unfold errorsIn, totalOf.
  induction reqs as [|r reqs IH]; cbn [fold_right length]; [lia|].
  destruct (reqIsError r); lia.
Qed.

Lemma recordRequests_rates (reqs : list Request) (m : PerformanceMetrics) :
  reqs <> [] ->
  let m' := recordRequests m reqs in
  averageResponseTime m'
    = (inject_Z (sumOver totalTime (endpoints m')) / inject_Z (requestCount m'))%Q /\
  errorRate m'
    = (inject_Z (sumOver errors (endpoints m')) / inject_Z (requestCount m'))%Q.
Proof.
  intros Hne. destruct (exists_last Hne) as (front & r & ->).
  unfold recordRequests. rewrite fold_left_app. cbn [fold_left].
  split; reflexivity.
Qed.

Lemma runWrapped_recordRequests {E R} (calls : list (Call E R)) (m : PerformanceMetrics) :
  runWrapped m calls =
  (map callOutcome calls,
   recordRequests m
     (map (fun call => mkRequest (callEndpoint call) (callEnd call - callStart call)
                                 (threw (callOutcome call)))
          calls)).
Proof.
  unfold runWrapped, recordRequests.
  assert (H : forall (outs : list (completion E R)) m0,
             fold_left
               (fun acc call =>
                  let '(result, metrics') :=
                    withMetrics (callOutcome call) (callEndpoint call) (callStart call)
                                (callEnd call) (snd acc) in
                  (fst acc ++ [result], metrics'))
               calls (outs, m0)
             = (outs ++ map callOutcome calls,
                fold_left (fun m1 r => recordRequest m1 (reqEndpoint r) (reqTime r) (reqIsError r))
                          (map (fun call => mkRequest (callEndpoint call)
                                                      (callEnd call - callStart call)
                                                      (threw (callOutcome call)))
                               calls) m0)).
  { induction calls as [|call calls IH]; intros outs m0; cbn [fold_left map].
    - now rewrite app_nil_r.
    - unfold withMetrics at 2. cbn [fst snd]. rewrite IH, <- app_assoc.
      cbn [reqEndpoint reqTime reqIsError]. unfold threw.
      destruct (callOutcome call); reflexivity. }
  apply H.
Qed.

End MetricsFacts.

(** ** Rotation, once more *)

Section RotationFrameFacts.
Import JsString Logging.

Lemma prefix_empty (s : string) : String.prefix "" s = true.
Proof. destruct s; reflexivity. Qed.

Lemma length_revString (s : string) : String.length (revString s) = String.length s.
Proof.
  induction s as [|c s IH]; simpl; [reflexivity|].
  assert (H : forall a b, String.length (a +:+ b) = (String.length a + String.length b)%nat)
    by (intros a b; induction a as [|x a IHa]; simpl; [reflexivity | now rewrite IHa]).
  rewrite H, IH. simpl. lia.
Qed.

Lemma prefix_app_r (q x y : string) :
  String.prefix q x = true -> String.prefix q (x +:+ y) = true.
Proof.
  intros H. apply prefix_iff in H as [post ->]. apply prefix_iff.
  exists (post +:+ y). apply append_assoc.
Qed.

Lemma prefix_app_inv (q x y : string) :
  String.prefix q (x +:+ y) = true -> (String.length q <= String.length x)%nat ->
  String.prefix q x = true.
Proof.
  revert x. induction q as [|c q IH]; intros x H Hlen; [apply prefix_empty|].
  destruct x as [|c' x]; [simpl in Hlen; lia|].
  simpl in *. destruct (ascii_dec c c'); [|discriminate].
  apply IH; [exact H | lia].
Qed.

Lemma endsWith_app_l (a t p : string) :
  endsWith t p = true -> endsWith (a +:+ t) p = true.
Proof. unfold endsWith. rewrite revString_app. apply prefix_app_r. Qed.

Lemma endsWith_app_inv (a t p : string) :
  endsWith (a +:+ t) p = true -> (String.length p <= String.length t)%nat ->
  endsWith t p = true.
Proof.
  unfold endsWith. rewrite revString_app. intros H Hlen.
  apply (prefix_app_inv _ _ _ H). now rewrite !length_revString.
Qed.

(** An archive name is again the name of a log file. *)
Lemma isLogFile_archiveName (file iso : string) :
  isLogFile file = true -> isLogFile (archiveName file iso) = true.
Proof.
  intros Hlog. pose proof (isLogFile_includes _ Hlog) as Hinc.
  unfold isLogFile in *. apply andb_true_iff in Hlog as [Hstart Hend].
  apply andb_true_iff. split.
  - unfold startsWith in *. apply prefix_iff in Hstart as [rest ->].
    unfold archiveName. apply prefix_iff.
    exists (replace rest ".log" ("-" +:+ dashColonsAndDots iso +:+ ".log")).
    reflexivity.
  - unfold archiveName.
    destruct (replace_occurrence file ".log" ("-" +:+ dashColonsAndDots iso +:+ ".log") Hinc)
      as (pre & post & Hfile & ->).
    rewrite Hfile in Hend.
    apply endsWith_app_inv in Hend; [|simpl; lia].
    rewrite !append_assoc.
    apply (endsWith_app_l (pre +:+ "-" +:+ dashColonsAndDots iso)) in Hend.
    now rewrite !append_assoc in Hend.
Qed.

(** Whatever it meets, the second loop of [rotateLogs] unlinks nothing and
    leaves the entries that are not log files as they are. *)
Lemma archiveOversized_frame (clock : nat -> string) (files : list string) :
  forall (i : nat) (d : gmap string File) (j : list FsEvent),
    (forall f, In f files -> isLogFile f = true) ->
    exists r d' evs,
      archiveOversized clock i files (mkWorld (Present d) j)
      = (r, mkWorld (Present d') (j ++ evs)) /\
      unlinkedOf evs = [] /\
      (forall g a, In (g, a) (renamedOf evs) -> isLogFile g = true /\ isLogFile a = true) /\
      forall g, isLogFile g = false -> d' !! g = d !! g.
Proof.
  induction files as [|f rest IH]; intros i d j Hlog.
  - exists (Normal tt), d, []. simpl. rewrite app_nil_r.
    split; [reflexivity|]. split; [reflexivity|]. split; [intros g a [] | auto].
  - cbn [archiveOversized]. unfold bind at 1, stat, bind, getDir. simpl.
    destruct (d !! f) as [x|] eqn:Hx.
    + unfold ret at 1.
      destruct (maxLogSize <? size x).
      * unfold rename, bind, getDir, setDir, emit. simpl. rewrite Hx. simpl.
        destruct (IH (S i) (<[archiveName f (clock i) := x]> (delete f d))
                     (j ++ [Renamed f (archiveName f (clock i))]))
          as (r & d' & evs & Hrun & Hunl & Hren & Hframe);
          [intros g Hg; apply Hlog; now right|].
        assert (Hf : isLogFile f = true) by (apply Hlog; now left).
        exists r, d', (Renamed f (archiveName f (clock i)) :: evs).
        split; [rewrite Hrun, <- app_assoc; reflexivity|]. split; [exact Hunl|].
        split.
        { intros g a [[= <- <-] | Hin]; [|now apply Hren].
          split; [exact Hf | now apply isLogFile_archiveName]. }
        intros g Hg. rewrite (Hframe g Hg).
        rewrite lookup_insert_ne
          by (intros Heq; rewrite <- Heq, isLogFile_archiveName in Hg; [discriminate | exact Hf]).
        apply lookup_delete_ne. intros Heq. congruence.
      * unfold ret at 1.
        destruct (IH (S i) d j) as (r & d' & evs & Hrun & Hunl & Hren & Hframe);
          [intros g Hg; apply Hlog; now right|].
        exists r, d', evs. auto.
    + unfold throw. exists (Throw (fsError "ENOENT")), d, [].
      rewrite app_nil_r.
      split; [reflexivity|]. split; [reflexivity|]. split; [intros g a [] | auto].
Qed.

Lemma rotateLogs_listing (d : gmap string File) :
  let logFiles := logFilesOf (map fst (map_to_list d)) in
  List.NoDup logFiles /\
  (forall f, In f logFiles <-> isLogFile f = true /\ is_Some (d !! f)) /\
  StronglySorted (fun a b => String.ltb b a = true) logFiles.
Proof.
  intros logFiles. pose proof (readdir_NoDup d) as Hnames.
  split; [now apply logFilesOf_NoDup|]. split; [|now apply logFilesOf_descending].
  intros f. unfold logFiles. rewrite logFilesOf_In, readdir_In. tauto.
Qed.

(** The first phase of [rotateLogs], whether or not the ceiling is passed. *)
Lemma rotateLogs_unlink_phase (d : gmap string File) (j : list FsEvent) :
  let logFiles := logFilesOf (map fst (map_to_list d)) in
  let deleted := skipn maxLogFiles logFiles in
  (if (maxLogFiles <? length logFiles)%nat then unlinkAll deleted else ret tt)
    (mkWorld (Present d) j)
  = (Normal tt, mkWorld (Present (deleteAll deleted d)) (j ++ map Unlinked deleted)).
Proof.
  intros logFiles deleted.
  destruct (rotateLogs_listing d) as (Hnd & Hin & _). fold logFiles in Hnd, Hin.
  destruct (Nat.ltb_spec maxLogFiles (length logFiles)) as [Hmany | Hfew].
  - apply unlinkAll_run.
    + rewrite <- (firstn_skipn maxLogFiles logFiles) in Hnd.
      eapply List.NoDup_app_remove_l. exact Hnd.
    + intros f Hf. apply Hin. rewrite <- (firstn_skipn maxLogFiles logFiles).
      apply in_or_app. now right.
  - unfold deleted. rewrite skipn_all2 by exact Hfew. simpl. now rewrite app_nil_r.
Qed.

(** X9.  On a directory it can list, [rotateLogs] returns normally and
    never touches an entry whose name does not match the pattern of log
    files: such an entry is neither unlinked, renamed nor overwritten.
    With at most 10 log files it unlinks nothing. *)
Theorem rotateLogs_frame (clock : nat -> string) (d : gmap string File) (j : list FsEvent) :
  exists d' evs,
    rotateLogs clock (mkWorld (Present d) j) = (Normal tt, mkWorld (Present d') (j ++ evs)) /\
    (forall g, isLogFile g = false -> d' !! g = d !! g) /\
    (forall g, In g (unlinkedOf evs) -> isLogFile g = true) /\
    (forall g a, In (g, a) (renamedOf evs) -> isLogFile g = true /\ isLogFile a = true) /\
    ((length (logFilesOf (map fst (map_to_list d))) <= maxLogFiles)%nat -> unlinkedOf evs = []).
Proof.
  set (logFiles := logFilesOf (map fst (map_to_list d))).
  set (deleted := skipn maxLogFiles logFiles).
  destruct (rotateLogs_listing d) as (Hnd & Hin & _). fold logFiles in Hnd, Hin.
  assert (Hdeleted : forall f, In f deleted -> isLogFile f = true).
  { intros f Hf. apply Hin. rewrite <- (firstn_skipn maxLogFiles logFiles).
    apply in_or_app. now right. }
  destruct (archiveOversized_frame clock (firstn maxLogFiles logFiles) 0
              (deleteAll deleted d) (j ++ map Unlinked deleted))
    as (r & d' & evs & Hrun & Hunl & Hren & Hframe).
  { intros f Hf. apply Hin. rewrite <- (firstn_skipn maxLogFiles logFiles).
    apply in_or_app. now left. }
  assert (Hframe' : forall g, isLogFile g = false -> d' !! g = d !! g).
  { intros g Hg. rewrite (Hframe g Hg). apply lookup_deleteAll_notin.
    intros Hdel. apply Hdeleted in Hdel. congruence. }
  assert (Hrotate :
    rotateLogs clock (mkWorld (Present d) j)
    = match r with
      | Normal _ => (Normal tt, mkWorld (Present d') ((j ++ map Unlinked deleted) ++ evs))
      | Throw _ => (Normal tt, mkWorld (Present d')
                                 (((j ++ map Unlinked deleted) ++ evs) ++
                                  [ConsoleError "Failed to rotate logs:"]))
      end).
  { unfold rotateLogs, catch, bind at 1, readdir, bind at 1, getDir, ret at 1. cbn [logDir].
    fold logFiles. unfold bind at 1.
    pose proof (rotateLogs_unlink_phase d j) as Hphase. cbv zeta in Hphase.
    fold logFiles in Hphase. fold deleted in Hphase. fold deleted. rewrite Hphase.
    rewrite Hrun. destruct r as [[]|e]; reflexivity. }
  destruct r as [[]|e].
  - exists d', (map Unlinked deleted ++ evs).
    split; [rewrite Hrotate, <- app_assoc; reflexivity|]. split; [exact Hframe'|].
    rewrite unlinkedOf_app, renamedOf_app, Hunl, app_nil_r, unlinkedOf_Unlinked.
    split; [exact Hdeleted|]. split.
    + intros g a Hga. apply in_app_or in Hga as [Hga | Hga]; [|now apply Hren].
      exfalso. clear -Hga. induction deleted; simpl in Hga; auto.
    + intros Hfew. unfold deleted. now apply skipn_all2.
  - exists d', (map Unlinked deleted ++ evs ++ [ConsoleError "Failed to rotate logs:"]).
    split; [rewrite Hrotate, <- !app_assoc; reflexivity|]. split; [exact Hframe'|].
    rewrite !unlinkedOf_app, !renamedOf_app, Hunl, unlinkedOf_Unlinked. simpl.
    rewrite !app_nil_r.
    split; [exact Hdeleted|]. split.
    + intros g a Hga. apply in_app_or in Hga as [Hga | Hga]; [|now apply Hren].
      exfalso. clear -Hga. induction deleted; simpl in Hga; auto.
    + intros Hfew. unfold deleted. now apply skipn_all2.
Qed.
End RotationFrameFacts.

(** ** Purging old logs *)

Section ClearLogsFacts.
Import JsString Logging FileSink.

Lemma clearOlder_run (mtime : string -> Z) (cutoff : Z) (files : list string) :
  forall (d : gmap string File) (j : list FsEvent),
    List.NoDup files ->
    (forall f, In f files -> is_Some (d !! f)) ->
    clearOlder mtime cutoff files (mkWorld (Present d) j)
    = (Normal tt,
       mkWorld (Present (deleteAll (List.filter (expired mtime cutoff) files) d))
               (j ++ map Unlinked (List.filter (expired mtime cutoff) files))).
Proof.
  induction files as [|file rest IH]; intros d j Hnd Hin; cbn [clearOlder List.filter].
  - simpl. now rewrite app_nil_r.
  - apply List.NoDup_cons_iff in Hnd as [Hnotin Hnd].
    destruct (Hin file (or_introl eq_refl)) as [x Hx].
    assert (Hrest : forall f, In f rest -> is_Some (d !! f)) by (intros f Hf; apply Hin; now right).
    rewrite <- negb_andb. fold (isLogFile file).
    assert (Hexp : expired mtime cutoff file = isLogFile file && (mtime file <? cutoff))
      by reflexivity.
    rewrite !Hexp. clear Hexp.
    destruct (isLogFile file); cbn [negb andb].
    + unfold stat, getDir, bind, ret. cbn [logDir]. rewrite Hx.
      destruct (mtime file <? cutoff).
      * unfold unlink, bind, getDir, setDir, emit. cbn [logDir]. rewrite Hx.
        cbn [logDir journal].
        rewrite IH; [cbn [map deleteAll fold_left]; now rewrite <- app_assoc | exact Hnd |].
        intros f Hf. rewrite lookup_delete_ne by congruence. now apply Hrest.
      * now apply IH.
    + now apply IH.
Qed.

Lemma filter_none {A} (f : A -> bool) (l : list A) :
  (forall x, In x l -> f x = false) -> List.filter f l = [].
Proof.
  induction l as [|x l IH]; intros H; simpl; [reflexivity|].
  rewrite (H x) by now left. apply IH. intros y Hy. apply H. now right.
Qed.

Lemma clearLogs_run (mtime : string -> Z) (cutoff : Z)
    (d : gmap string File) (j : list FsEvent) :
  clearLogs mtime cutoff (mkWorld (Present d) j)
  = (Normal tt,
     mkWorld (Present (deleteAll (List.filter (expired mtime cutoff) (map fst (map_to_list d))) d))
             (j ++ map Unlinked
                       (List.filter (expired mtime cutoff) (map fst (map_to_list d))))).
Proof.
  unfold clearLogs, catch, bind, readdir, bind, getDir, ret. cbn [logDir].
  rewrite clearOlder_run; [reflexivity | apply readdir_NoDup |].
  intros f Hf. now apply readdir_In.
Qed.

End ClearLogsFacts.

(** ** Writing a record *)

Section LogToFileFacts.
Import JsString Logging FileSink.

Lemma isLogFile_logFileOf (date : string) : isLogFile (logFileOf date) = true.
Proof.
  unfold isLogFile, logFileOf. apply andb_true_iff. split.
  - apply prefix_iff. eexists. reflexivity.
  - rewrite <- append_assoc. now apply endsWith_app_l.
Qed.

Lemma archiveOversized_small (clock : nat -> string) (files : list string) :
  forall (i : nat) (d : gmap string File) (j : list FsEvent),
    (forall f, In f files -> exists x, d !! f = Some x /\ size x <= maxLogSize) ->
    archiveOversized clock i files (mkWorld (Present d) j)
    = (Normal tt, mkWorld (Present d) j).
Proof.
  induction files as [|f rest IH]; intros i d j Hsmall; [reflexivity|].
  destruct (Hsmall f (or_introl eq_refl)) as (x & Hx & Hsize).
  cbn [archiveOversized]. unfold stat, getDir, bind, ret. cbn [logDir]. rewrite Hx.
  destruct (Z.ltb_spec maxLogSize (size x)); [lia|].
  apply IH. intros g Hg. apply Hsmall. now right.
Qed.

(** With at most ten log files, none above the size ceiling, a rotation
    pass changes nothing. *)
Lemma rotateLogs_quiet (clock : nat -> string) (d : gmap string File) (j : list FsEvent) :
  (length (logFilesOf (map fst (map_to_list d))) <= maxLogFiles)%nat ->
  (forall f x, isLogFile f = true -> d !! f = Some x -> size x <= maxLogSize) ->
  rotateLogs clock (mkWorld (Present d) j) = (Normal tt, mkWorld (Present d) j).
Proof.
  intros Hfew Hsmall.
  set (logFiles := logFilesOf (map fst (map_to_list d))) in *.
  destruct (rotateLogs_listing d) as (_ & Hin & _). fold logFiles in Hin.
  unfold rotateLogs, catch, bind at 1, readdir, bind at 1, getDir, ret at 1. cbn [logDir].
  fold logFiles.
  destruct (Nat.ltb_spec maxLogFiles (length logFiles)) as [Hmany | _]; [lia|].
  unfold bind at 1, ret at 1.
  rewrite firstn_all2 by exact Hfew.
  rewrite archiveOversized_small; [reflexivity|].
  intros f Hf. apply Hin in Hf as [Hlog [x Hx]]. exists x. split; [exact Hx|].
  now apply (Hsmall f x).
Qed.

Lemma appendFile_run (file text : string) (d : gmap string File) (j : list FsEvent) :
  writable (d !! file) ->
  appendFile file text (mkWorld (Present d) j)
  = (Normal tt, mkWorld (Present (<[file := appended (d !! file) text]> d)) j).
Proof.
  intros Hw. unfold appendFile, getDir, bind, setDir, throw, appended. cbn [logDir].
  destruct (d !! file) as [[sz [old|]]|]; simpl in *; [reflexivity | destruct Hw | reflexivity].
Qed.

Lemma logToFile_steps (date json : string) (clock : nat -> string) (w : World) :
  logDir w <> Blocked ->
  writable (dirOf w !! logFileOf date) ->
  logToFile date json clock w
  = catch (rotateLogs clock)
          (fun _ => emit (ConsoleError "Failed to write error log:"))
          (mkWorld (Present (<[logFileOf date :=
                                 appended (dirOf w !! logFileOf date) (json +:+ newline)]>
                               (dirOf w)))
                   (journal w)).
Proof.
  intros Hopen Hw. destruct w as [[d| |] j]; cbn [dirOf logDir journal] in *; [| |congruence].
  - unfold logToFile, catch, bind at 1, mkdir. cbn [logDir].
    unfold bind at 1. rewrite appendFile_run by exact Hw. reflexivity.
  - unfold logToFile, catch, bind at 1, mkdir. cbn [logDir].
    unfold bind at 1. rewrite appendFile_run by exact Hw. reflexivity.
Qed.

(** X11.  When the directory is there or can be created, the day's file
    can be written, and after the write there are at most ten log files,
    none above 10 MiB, [logToFile] appends the record and a line feed to
    the day's file (creating it, and the directory, when missing), returns
    normally, and changes nothing else. *)
Theorem logToFile_appends (date json : string) (clock : nat -> string) (w : World) :
  let d := dirOf w in
  let logFile := logFileOf date in
  let written := <[logFile := appended (d !! logFile) (json +:+ newline)]> d in
  logDir w <> Blocked ->
  writable (d !! logFile) ->
  (length (logFilesOf (map fst (map_to_list written))) <= maxLogFiles)%nat ->
  (forall f x, isLogFile f = true -> written !! f = Some x -> size x <= maxLogSize) ->
  logToFile date json clock w = (Normal tt, mkWorld (Present written) (journal w)) /\
  (forall old f, d !! logFile = Some f -> content f = Some old ->
                 written !! logFile
                 = Some (mkFile (size f + Z.of_nat (String.length (json +:+ newline)))
                                (Some (old +:+ json +:+ newline)))) /\
  (d !! logFile = None ->
   written !! logFile
   = Some (mkFile (Z.of_nat (String.length (json +:+ newline))) (Some (json +:+ newline)))) /\
  (forall other, other <> logFile -> written !! other = d !! other).
Proof.
  intros d logFile written Hopen Hw Hfew Hsmall.
  split; [|split; [|split]].
  - rewrite logToFile_steps by assumption. fold d logFile written.
    unfold catch. now rewrite rotateLogs_quiet.
  - intros old f Hf Hold. unfold written. rewrite lookup_insert_eq, Hf.
    unfold appended. now rewrite Hold.
  - intros Hnone. unfold written. now rewrite lookup_insert_eq, Hnone.
  - intros other Hne. unfold written. now rewrite lookup_insert_ne.
Qed.

(** A rotation pass on any directory that can be listed. *)
Lemma rotateLogs_archives (clock : nat -> string) (d : gmap string File) (j : list FsEvent) :
  exists d' evs,
    rotateLogs clock (mkWorld (Present d) j) = (Normal tt, mkWorld (Present d') (j ++ evs)) /\
    forall file x,
      In file (firstn maxLogFiles (logFilesOf (map fst (map_to_list d)))) ->
      d !! file = Some x -> maxLogSize < size x ->
      d' !! file = None /\
      exists k, In (file, archiveName file (clock k)) (renamedOf evs).
Proof.
  set (logFiles := logFilesOf (map fst (map_to_list d))).
  set (deleted := skipn maxLogFiles logFiles).
  set (retained := firstn maxLogFiles logFiles).
  destruct (rotateLogs_listing d) as (Hnd & Hin & Hdesc). fold logFiles in Hnd, Hin, Hdesc.
  assert (Hsplit : logFiles = retained ++ deleted) by (symmetry; apply firstn_skipn).
  rewrite Hsplit in Hnd, Hdesc.
  apply StronglySorted_app_inv in Hdesc as (Hdesc & _ & Hcross).
  assert (Hdisjoint : forall f, In f retained -> ~ In f deleted).
  { intros f Hr Hd. specialize (Hcross f f Hr Hd). now rewrite string_ltb_irrefl in Hcross. }
  destruct (archiveOversized_run clock retained 0 (deleteAll deleted d)
              (j ++ map Unlinked deleted) Hdesc)
    as (d' & evs & slots & Hrun & _ & _ & _ & Hmoved).
  { intros f Hf. destruct (Hin f) as [[Hlog Hsome] _];
      [rewrite Hsplit; apply in_or_app; now left|].
    split; [exact Hlog|]. rewrite lookup_deleteAll_notin by now apply Hdisjoint. exact Hsome. }
  exists d', (map Unlinked deleted ++ evs). split.
  - pose proof (rotateLogs_unlink_phase d j) as Hphase. cbv zeta in Hphase.
    fold logFiles in Hphase. fold deleted in Hphase.
    unfold rotateLogs, catch, bind at 1, readdir, bind at 1, getDir, ret at 1. cbn [logDir].
    fold logFiles. unfold bind at 1. fold deleted retained. rewrite Hphase, Hrun.
    now rewrite <- app_assoc.
  - intros file x Hfile Hx Hsize.
    destruct (Hmoved file x Hfile) as [Hgone [k Hk]];
      [rewrite lookup_deleteAll_notin by (now apply Hdisjoint); exact Hx | exact Hsize |].
    split; [exact Hgone|]. exists k. rewrite renamedOf_app. apply in_or_app. now right.
Qed.

End LogToFileFacts.

(** ** Reading the logs back, once more *)

Section RecentLogsMoreFacts.
Import JsString Logging.
Context {ErrorLog : Type}.
Variable parseLine : string -> option ErrorLog.

Lemma getRecentLogs_server_run (limit : nat) (w : World) :
  getRecentLogs parseLine ServerErrorLoggerModule limit w
  = match logDir w with
    | Present d => (Normal (firstn limit (recordsNewestFirst parseLine d)), w)
    | Absent => (Normal [], mkWorld (Present ∅) (journal w))
    | Blocked =>
        (Normal [], mkWorld Blocked (journal w ++ [ConsoleError "Failed to get recent logs:"]))
    end.
Proof.
  destruct w as [[d| |] j];
    unfold getRecentLogs, catch, bind, resolve, mkdir, readdir, bind, getDir, ret;
    cbn -[collectFiles logFilesOf].
  - now rewrite collectFiles_firstn by (simpl; lia).
  - rewrite collectFiles_firstn by (simpl; lia).
    rewrite map_to_list_empty. simpl. now rewrite firstn_nil.
  - reflexivity.
Qed.

(** X13.  [getRecentLogs] of the server logger changes nothing in a
    directory that exists and writes nothing to the console; when the
    directory is missing it creates it and returns no record.  A smaller
    limit gives a prefix of what a larger limit gives, and limit 0 gives
    no record. *)
Theorem getRecentLogs_reads_only (limit limit' : nat) (w : World) :
  let run := fun n => getRecentLogs parseLine ServerErrorLoggerModule n w in
  (logDir w <> Absent -> logDir w <> Blocked -> snd (run limit) = w) /\
  (logDir w = Absent ->
   run limit = (Normal [], mkWorld (Present ∅) (journal w))) /\
  ((limit <= limit')%nat ->
   exists more, fst (run limit') = Normal more /\ fst (run limit) = Normal (firstn limit more)) /\
  fst (run 0%nat) = Normal [].
Proof.
  intros run. unfold run. rewrite !getRecentLogs_server_run.
  destruct (logDir w) as [d| |] eqn:Hdir; cbn [fst snd].
  - split; [reflexivity|]. split; [discriminate|]. split; [|reflexivity].
    intros Hle. eexists. split; [reflexivity|].
    rewrite firstn_firstn. now rewrite Nat.min_l.
  - split; [congruence|]. split; [reflexivity|]. split; [|reflexivity].
    intros _. exists []. split; [reflexivity | now rewrite firstn_nil].
  - split; [congruence|]. split; [discriminate|]. split; [|reflexivity].
    intros _. exists []. split; [reflexivity | now rewrite firstn_nil].
Qed.
End RecentLogsMoreFacts.

(** ** The retry engine, once more *)

Section RetryMoreFacts.
Import JsString ErrorHandling.
Import ErrorBoundary (succeededLog).
Context {T : Type}.
Variable operation : nat -> completion Error T.
Variable config : RetryConfig.

(** The loop when the operation fails [m] more times, retryably, and then
    returns. *)
Lemma withRetryLoop_succeeds (v : T) (m : nat) :
  forall (fuel calls : nat) (lastError : option Error) (attempt : Z),
    (m < fuel)%nat ->
    0 <= attempt ->
    attempt + Z.of_nat m < maxAttempts config ->
    (forall i, (i < m)%nat -> exists e,
        operation (calls + i)%nat = Throw e /\
        isErrorRetryable e (retryableErrors config) = true) ->
    operation (calls + m)%nat = Normal v ->
    exists trace,
      withRetryLoop operation config fuel calls lastError attempt = Some (Normal v, trace) /\
      invocations trace = seq calls (S m) /\
      sleeps trace = map (fun j => backoffDelay config (attempt + Z.of_nat j)) (seq 1 m) /\
      succeededLog trace = if 0 <? attempt + Z.of_nat m then [attempt + Z.of_nat m + 1] else [].
Proof.
  induction m as [|m IH]; intros fuel calls lastError attempt Hfuel Hatt Hroom Hfail Hok.
  - destruct fuel as [|fuel]; [lia|]. simpl.
    destruct (Z.ltb_spec attempt (maxAttempts config)); [|lia].
    rewrite Nat.add_0_r in Hok. rewrite Hok, Z.add_0_r.
    eexists. split; [reflexivity|].
    destruct (0 <? attempt); repeat split.
  - destruct fuel as [|fuel]; [lia|]. simpl.
    destruct (Z.ltb_spec attempt (maxAttempts config)); [|lia].
    destruct (Hfail 0%nat) as (e & Hop & Hretry); [lia|].
    rewrite Nat.add_0_r in Hop. rewrite Hop, Hretry. simpl.
    destruct (Z.leb_spec (maxAttempts config) (attempt + 1)); [lia|].
    destruct (IH fuel (S calls) (Some e) (attempt + 1)) as (trace & Hrun & Hinv & Hsl & Hlog);
      [lia | lia | lia | | |].
    + intros i Hi. destruct (Hfail (S i)) as (e' & He' & Hr'); [lia|].
      exists e'. split; [|exact Hr']. rewrite <- He'. f_equal. lia.
    + rewrite <- Hok. f_equal. lia.
    + rewrite Hrun. eexists. split; [reflexivity|].
      split; [simpl; now rewrite Hinv|]. split.
      * simpl. rewrite Hsl. f_equal.
        rewrite <- (seq_shift m 1), map_map. apply List.map_ext. intros j. f_equal. lia.
      * simpl. rewrite Hlog.
        replace (attempt + 1 + Z.of_nat m) with (attempt + Z.of_nat (S m)) by lia.
        reflexivity.
Qed.

(** The number of invocations never passes the attempts that are left. *)
Lemma withRetryLoop_bounded (fuel calls : nat) (lastError : option Error) (attempt : Z) r trace :
  withRetryLoop operation config fuel calls lastError attempt = Some (r, trace) ->
  Z.of_nat (length (invocations trace)) <= Z.max 0 (maxAttempts config - attempt).
Proof.
  revert calls lastError attempt r trace.
  induction fuel as [|fuel IH]; intros calls lastError attempt r trace; simpl.
  - destruct (Z.ltb_spec attempt (maxAttempts config)); [discriminate|].
    intros [= <- <-]. simpl. lia.
  - destruct (Z.ltb_spec attempt (maxAttempts config)); [|intros [= <- <-]; simpl; lia].
    destruct (operation calls) as [result|error].
    + intros [= <- <-]. destruct (0 <? attempt); simpl; lia.
    + destruct (negb _ || _); [intros [= <- <-]; simpl; lia|].
      destruct (withRetryLoop _ _ fuel _ _ _) as [[r' tr]|] eqn:Hrec; [|discriminate].
      intros [= <- <-]. apply IH in Hrec. simpl. lia.
Qed.
End RetryMoreFacts.

Section RetryMoreClaims.
Import JsString ErrorHandling.
Import ErrorBoundary (succeededLog).
Context {T : Type}.

(** X14.  When the operation fails [k] times with retryable errors and
    then returns [v], with [k] below [maxAttempts], [withRetry] returns [v]
    after [k + 1] invocations, having waited the [k] backoff delays in
    order; it logs the success when, and only when, [k > 0]. *)
Theorem withRetry_succeeds_after
    (operation : nat -> completion Error T) (config : RetryConfig) (k : nat) (v : T) :
  Z.of_nat k < maxAttempts config ->
  (forall i, (i < k)%nat -> exists e,
      operation i = Throw e /\ isErrorRetryable e (retryableErrors config) = true) ->
  operation k = Normal v ->
  exists trace,
    withRetry operation config = Some (Normal v, trace) /\
    invocations trace = seq 0 (S k) /\
    sleeps trace = map (fun j => Z.min (baseDelay config *
                                        backoffMultiplier config ^ (Z.of_nat j - 1))
                                       (maxDelay config)) (seq 1 k) /\
    succeededLog trace = if (0 <? k)%nat then [Z.of_nat k + 1] else [].
Proof.
  intros Hk Hfail Hok. unfold withRetry.
  destruct (withRetryLoop_succeeds operation config v k
              (Z.to_nat (maxAttempts config)) 0 None 0)
    as (trace & Hrun & Hinv & Hsl & Hlog); try lia; try assumption.
  exists trace. split; [exact Hrun|]. split; [exact Hinv|]. split; [exact Hsl|].
  rewrite Hlog. simpl. destruct k; [reflexivity|].
  destruct (Z.ltb_spec 0 (Z.of_nat (S k))); [reflexivity | lia].
Qed.

(** X15.  With [maxAttempts] zero or negative, [withRetry] never invokes
    the operation and throws the unassigned [lastError], that is
    [undefined], without logging or waiting. *)
Theorem withRetry_no_attempts (operation : nat -> completion Error T) (config : RetryConfig) :
  maxAttempts config <= 0 ->
  withRetry operation config = Some (Throw None, []).
Proof.
  intros Hn. unfold withRetry.
  replace (Z.to_nat (maxAttempts config)) with 0%nat by lia. simpl.
  destruct (Z.ltb_spec 0 (maxAttempts config)); [lia | reflexivity].
Qed.

End RetryMoreClaims.

(** ** The classifier, once more *)

Section ClassifierMoreFacts.
Import JsString ErrorHandling.

Lemma includes_empty (s : string) : includes s "" = true.
Proof. destruct s; reflexivity. Qed.

(** X17.  With an empty list of patterns no error is retryable; with a
    list that holds the empty string every error is; a longer list only
    makes more errors retryable.  The status of an error counts only when
    the configuration has no list at all: there a status of 500 or more is
    enough, while with a list, as in the three presets, it is never looked
    at. *)
Theorem isErrorRetryable_patterns (error : Error) (patterns more : list string) :
  isErrorRetryable error (Some []) = false /\
  (In ""%string patterns -> isErrorRetryable error (Some patterns) = true) /\
  (isErrorRetryable error (Some patterns) = true ->
   isErrorRetryable error (Some (more ++ patterns)) = true /\
   isErrorRetryable error (Some (patterns ++ more)) = true) /\
  (forall st, isErrorRetryable (mkError (message error) (code error) st) (Some patterns)
              = isErrorRetryable error (Some patterns)) /\
  (forall st, 500 <= st ->
              isErrorRetryable (mkError (message error) (code error) (Some st)) None = true) /\
  Forall (fun preset => retryableErrors preset <> None)
         [RETRY_CONFIGS_github; RETRY_CONFIGS_email; RETRY_CONFIGS_api].
Proof.
  split; [reflexivity|]. split; [|split; [|split; [|split]]].
  - intros Hin. simpl. apply existsb_exists. exists ""%string. split; [exact Hin|].
    simpl. now rewrite includes_empty.
  - simpl. rewrite !existsb_app. intros ->. split; [apply orb_true_r | reflexivity].
  - reflexivity.
  - intros st Hst. unfold isErrorRetryable, statusAtLeast. cbn [status].
    apply Z.leb_le in Hst. rewrite Hst. now rewrite !orb_true_r.
  - repeat constructor; discriminate.
Qed.
End ClassifierMoreFacts.

(** ** The error boundaries *)

Section ErrorBoundaryFacts.
Import JsString ErrorBoundary.
Context {ErrorCodes : Type} (VALIDATION_ERROR : ErrorCodes) {R : Type}.

(** X18.  [withErrorHandling] hands a result on untouched; whatever the
    handler throws, the caller gets an [AppError]: the one thrown, not
    logged, or for any other value a new one with status 500, not
    retryable, stamped with the time of the conversion and logged once.
    Wrapping a wrapped handler changes nothing and logs nothing more. *)
Theorem withErrorHandling_normalises (outcome : completion (Thrown ErrorCodes) R) (now now' : Z) :
  let result := fst (withErrorHandling ErrorCodes VALIDATION_ERROR outcome now) in
  let logged := snd (withErrorHandling ErrorCodes VALIDATION_ERROR outcome now) in
  (forall v, outcome = Normal v -> result = Normal v /\ logged = []) /\
  (forall x, outcome = Throw x -> isAppError ErrorCodes result) /\
  (forall e, outcome = Throw (ThrownApp ErrorCodes e) -> result = outcome /\ logged = []) /\
  (forall f, outcome = Throw (ThrownForeign ErrorCodes f) ->
     exists e,
       result = Throw (ThrownApp ErrorCodes e) /\
       logged = [LoggedError ErrorCodes "API handler error" e] /\
       statusCode ErrorCodes e = 500 /\
       isRetryable ErrorCodes e = false /\
       code ErrorCodes e = VALIDATION_ERROR /\
       timestamp (context ErrorCodes e) = now /\
       component (context ErrorCodes e) = Some "api-handler"%string) /\
  withErrorHandling ErrorCodes VALIDATION_ERROR result now' = (result, []).
Proof.
  intros result logged. unfold result, logged.
  destruct outcome as [v | [e | f]]; cbn [withErrorHandling fst snd].
  - split; [intros v0 [= <-]; split; reflexivity|]. split; [intros x [=]|].
    split; [intros e [=]|]. split; [intros f [=] | reflexivity].
  - split; [intros v [=]|]. split; [intros x _; exists e; reflexivity|].
    split; [intros e' _; split; reflexivity|]. split; [intros f [=] | reflexivity].
  - split; [intros v [=]|]. split; [intros x _; eexists; reflexivity|].
    split; [intros e [=]|]. split; [|reflexivity].
    intros f' [= <-]. eexists. repeat split.
Qed.

End ErrorBoundaryFacts.

(** ** Archive names *)

Section ArchiveNameFacts.
Import JsString Logging.

End ArchiveNameFacts.

(** ** The further properties at work on concrete inputs *)

Section MoreInstances.
Import JsString ErrorHandling Monitoring Logging Metrics Probes FileSink Samples.
Import ErrorBoundary (succeededLog).

(** X6 on two runs without a GitHub token. *)
Lemma scheduledRuns_optional_unset_two_runs :
  (availability (getStats (scheduledRuns twoRuns (newUptimeMonitor 0)) 120000) == 0)%Q.
Proof.
  refine (proj2 (proj2 (scheduledRuns_optional_unset 0 120000 twoRuns _ _))).
  - discriminate.
  - repeat constructor; apply List.Exists_cons_hd; left; vm_compute; reflexivity.
Defined.


(** X11 on a first record, the directory not yet there. *)
Lemma logToFile_appends_first_record :
  logToFile "2024-03-01" "{}" sampleClock (initially Absent)
  = (Normal tt,
     mkWorld (Present (<[logFileOf "2024-03-01" := mkFile 3 (Some ("{}" +:+ newline))]>
                         (∅ : gmap string File))) []).
Proof.
  refine (proj1 (logToFile_appends "2024-03-01" "{}" sampleClock (initially Absent) _ _ _ _)).
  - discriminate.
  - exact I.
  - vm_compute. lia.
  - intros f x _. cbn [dirOf initially logDir].
    destruct (string_dec (logFileOf "2024-03-01") f) as [<- | Hne].
    + rewrite lookup_insert_eq. intros [= <-]. vm_compute. discriminate.
    + rewrite lookup_insert_ne by exact Hne. rewrite lookup_empty. discriminate.
Defined.


(** X14 on an operation that fails once, under the [api] preset. *)
Lemma withRetry_succeeds_after_one_failure :
  exists trace,
    withRetry flaky RETRY_CONFIGS_api = Some (Normal 7%nat, trace) /\
    invocations trace = [0; 1]%nat /\
    sleeps trace = [500] /\
    succeededLog trace = [2].
Proof.
  apply (withRetry_succeeds_after flaky RETRY_CONFIGS_api 1 7%nat).
  - simpl. lia.
  - intros i Hi. replace i with 0%nat by lia. eexists. split; reflexivity.
  - reflexivity.
Defined.


(** X15 on a configuration that allows no attempt. *)
Lemma withRetry_no_attempts_sample :
  withRetry flaky noAttempts = Some (Throw None, []).
Proof. apply (withRetry_no_attempts flaky noAttempts). simpl. lia. Defined.
End MoreInstances.
